(** * Elastic collisions of circles with a quadtree: a model of [simulator.py]

    The development embeds the simulation core of [simulator.py]
    (quadtree build, collision detection, pairwise resolution, wall
    clamping, the tick) and states the properties of the specification
    about it.

    Conventions of the embedding.
    - A numpy [float64] scalar is a real number; rounding is not modelled.
      The one place where IEEE arithmetic is not an approximation of real
      arithmetic, division by zero, is made explicit: an operation whose
      divisor is zero yields [NotANumber] (numpy warns and stores nan/inf,
      it raises nothing).  The model stops there; what Python goes on to
      compute from nan is outside it.
    - A 2-element numpy array is the pair of the values it holds.  The
      dtype of an array is not modelled: an int64 array and a float64
      array with the same values are the same pair.  The two differ in
      the program where [move_objects] writes a fractional radius or
      bound in place into an int64 position array, which numpy truncates.
      No general property is stated below about the positions that
      [move_objects] writes at a wall; the examples that go through such a
      write have integer radii and bounds, which truncation leaves as
      they are.
    - Python objects have identity.  The bodies of a [Space] live in the
      list [objects], each of them once; a reference to a body is its
      index in that list, and every structure that holds bodies (quadtree
      nodes, collisions) holds indices.
    - A recursive Python function carries a [fuel] counting the nested
      calls it may make; running out of it is [RecursionError]. *)

From Stdlib Require Import Reals Lra Lia List Bool Arith PeanoNat.
Import ListNotations.

Open Scope R_scope.

(** ** Outcomes *)

Inductive result (A : Type) : Type :=
| Ok (a : A)
| RecursionError
| NotANumber.

Arguments Ok {A} a.
Arguments RecursionError {A}.
Arguments NotANumber {A}.

Definition bind {A B : Type} (r : result A) (f : A -> result B) : result B :=
  match r with
  | Ok a => f a
  | RecursionError => RecursionError
  | NotANumber => NotANumber
  end.

Notation "x <- r ;; k" := (bind r (fun x => k))
  (at level 61, r at next level, right associativity).

(** ** Scalars and vectors *)

Definition Rleb (x y : R) : bool := if Rle_dec x y then true else false.
Definition Rltb (x y : R) : bool := if Rlt_dec x y then true else false.

Definition vec : Type := (R * R)%type.

Definition vadd (a b : vec) : vec := (fst a + fst b, snd a + snd b).
Definition vsub (a b : vec) : vec := (fst a - fst b, snd a - snd b).
Definition vscale (c : R) (a : vec) : vec := (c * fst a, c * snd a).

(** [np.linalg.norm] of a 2-vector. *)
Definition norm (a : vec) : R := sqrt (fst a * fst a + snd a * snd a).

(** [a / c] for an array [a] and a scalar [c]. *)
Definition vdiv (a : vec) (c : R) : result vec :=
  if Req_dec_T c 0 then NotANumber else Ok (fst a / c, snd a / c).

(** [x / c] for scalars. *)
Definition sdiv (x c : R) : result R :=
  if Req_dec_T c 0 then NotANumber else Ok (x / c).

(** [np.arctan2 y x] on the reals. *)
Definition arctan2 (y x : R) : R :=
  if Rlt_dec 0 x then atan (y / x)
  else if Rlt_dec x 0 then
         if Rle_dec 0 y then atan (y / x) + PI else atan (y / x) - PI
  else if Rlt_dec 0 y then PI / 2
  else if Rlt_dec y 0 then - PI / 2
  else 0.

(** A 2x2 matrix, row by row, and [np.matmul] of a matrix and a vector. *)
Definition mat : Type := (vec * vec)%type.

Definition matmul (m : mat) (a : vec) : vec :=
  (fst (fst m) * fst a + snd (fst m) * snd a,
   fst (snd m) * fst a + snd (snd m) * snd a).

Definition transpose (m : mat) : mat :=
  ((fst (fst m), fst (snd m)), (snd (fst m), snd (snd m))).

(** ** Bodies *)

Record Object : Type := mkObject {
  pos : vec;            (* position vector of center *)
  vel : vec;            (* velocity vector *)
  size : R;             (* radius *)
  color : R * R * R;
  mass : R
}.

(** [Object.__init__]: every argument is stored as it comes; the
    constructor has no failing path. *)
Definition Object_init (p : vec) (sz : R) (v : vec) (m : R) (c : R * R * R)
  : result Object :=
  Ok {| pos := p; vel := v; size := sz; color := c; mass := m |}.

(** The defaults of [Object.__init__]. *)
Definition Object_default : Object :=
  {| pos := (0, 0); vel := (0, 0); size := 10;
     color := (200, 200, 200); mass := 10 |}.

Definition set_pos (o : Object) (p : vec) : Object :=
  {| pos := p; vel := vel o; size := size o; color := color o; mass := mass o |}.

Definition set_vel (o : Object) (v : vec) : Object :=
  {| pos := pos o; vel := v; size := size o; color := color o; mass := mass o |}.

Definition dist (self other : Object) : R := norm (vsub (pos self) (pos other)).

(** [Object.collides]: intersecting or touching. *)
Definition collides (self other : Object) : bool :=
  Rleb (dist self other) (size self + size other).

(** The heap of bodies and references into it. *)
Definition store : Type := list Object.
Definition ref : Type := nat.

Definition deref (st : store) (i : ref) : Object := nth i st Object_default.

Fixpoint set_nth {A : Type} (i : nat) (x : A) (l : list A) {struct l} : list A :=
  match l, i with
  | [], _ => []
  | _ :: t, O => x :: t
  | h :: t, S j => h :: set_nth j x t
  end.

(** ** The quadtree *)

Definition QUADTREE_K : nat := 5.

(** The test of [inside] on one body: its bounding square against the
    rectangle of corner [p] and extent [sz]. *)
Definition overlaps (p sz : vec) (o : Object) : bool :=
  let x := fst p in
  let y := snd p in
  let w := fst sz in
  let h := snd sz in
  Rleb x (fst (pos o) + size o) && Rltb (fst (pos o) - size o) (x + w)
  && Rleb y (snd (pos o) + size o) && Rltb (snd (pos o) - size o) (y + h).

Definition inside (st : store) (p sz : vec) (objs : list ref) : list ref :=
  filter (fun i => overlaps p sz (deref st i)) objs.

#[warnings="-register-all"]
Inductive Node : Type :=
| mkNode (npos nsize : vec) (points : list ref) (children : list Node).

Definition node_pos (n : Node) : vec := let '(mkNode p _ _ _) := n in p.
Definition node_size (n : Node) : vec := let '(mkNode _ s _ _) := n in s.
Definition points (n : Node) : list ref := let '(mkNode _ _ l _) := n in l.
Definition children (n : Node) : list Node := let '(mkNode _ _ _ c) := n in c.

Definition half (sz : vec) : vec := (fst sz / 2, snd sz / 2).

(** The four child nodes [x1 .. x4] as [recursive_subdivide] constructs
    them, before it recurses into them. *)
Definition child1 (st : store) (n : Node) : Node :=
  mkNode (node_pos n) (half (node_size n))
         (inside st (node_pos n) (node_size n) (points n)) [].

Definition child2 (st : store) (n : Node) : Node :=
  let size := half (node_size n) in
  let x := fst (node_pos n) + fst size in
  let y := snd (node_pos n) in
  mkNode (x, y) size (inside st (x, y) size (points n)) [].

Definition child3 (st : store) (n : Node) : Node :=
  let size := half (node_size n) in
  let x := fst (node_pos n) in
  let y := snd (node_pos n) + snd size in
  mkNode (x, y) size (inside st (x, y) size (points n)) [].

Definition child4 (st : store) (n : Node) : Node :=
  let size := half (node_size n) in
  let x := fst (node_pos n) + fst size in
  let y := snd (node_pos n) + snd size in
  mkNode (x, y) size (inside st (x, y) size (points n)) [].

(** [recursive_subdivide node k]; the node is updated in place in Python,
    here the updated node is returned. *)
Fixpoint recursive_subdivide (fuel : nat) (st : store) (node : Node) (k : nat)
  : result Node :=
  match fuel with
  | O => RecursionError
  | S fuel' =>
      if (length (points node) <=? k)%nat then Ok node
      else
        x1 <- recursive_subdivide fuel' st (child1 st node) k ;;
        x2 <- recursive_subdivide fuel' st (child2 st node) k ;;
        x3 <- recursive_subdivide fuel' st (child3 st node) k ;;
        x4 <- recursive_subdivide fuel' st (child4 st node) k ;;
        Ok (mkNode (node_pos node) (node_size node) [] [x1; x2; x3; x4])
  end.

(** ** Collisions *)

Record Collision : Type := mkCollision { obj1 : ref; obj2 : ref }.

(** [Collision.__eq__]; bodies compare by identity. *)
Definition Collision_eq (self other : Collision) : bool :=
  ((obj1 self =? obj1 other)%nat && (obj2 self =? obj2 other)%nat)
  || ((obj1 self =? obj2 other)%nat && (obj2 self =? obj1 other)%nat).

(** [coll in collisions]. *)
Definition Collision_in (coll : Collision) (l : list Collision) : bool :=
  existsb (fun x => Collision_eq x coll) l.

(** [collisions.remove(c)]: drops the first element equal to [c]. *)
Fixpoint list_remove (c : Collision) (l : list Collision) : list Collision :=
  match l with
  | [] => []
  | x :: t => if Collision_eq x c then t else x :: list_remove c t
  end.

(** ** The space *)

Record Space : Type := mkSpace {
  objects : store;
  dim : vec;
  collisions : list Collision
}.

(** [Space.__init__]: no argument is checked. *)
Definition Space_init (objs : store) (d : vec) : result Space :=
  Ok {| objects := objs; dim := d; collisions := [] |}.

Definition refs_of (st : store) : list ref := seq 0 (length st).

(** The body of the two nested loops of [traverse] for one [obj], [obj2]. *)
Definition scan_pair (st : store) (obj obj2 : ref) (colls : list Collision)
  : list Collision :=
  let coll := mkCollision obj obj2 in
  if negb (obj =? obj2)%nat
     && collides (deref st obj) (deref st obj2)
     && negb (Collision_in coll colls)
  then colls ++ [coll]
  else colls.

Definition scan_leaf (st : store) (pts : list ref) (colls : list Collision)
  : list Collision :=
  fold_left
    (fun acc obj => fold_left (fun acc2 obj2 => scan_pair st obj obj2 acc2) pts acc)
    pts colls.

(** [Space.traverse]: the collisions list of the space is threaded. *)
Fixpoint traverse (st : store) (node : Node) (colls : list Collision)
  : list Collision :=
  match node with
  | mkNode _ _ pts ch =>
      match ch with
      | [] => scan_leaf st pts colls
      | _ :: _ =>
          (fix each (l : list Node) (acc : list Collision) : list Collision :=
             match l with
             | [] => acc
             | child :: l' => each l' (traverse st child acc)
             end) ch colls
      end
  end.

(** The root node that [find_collisions] builds for a space. *)
Definition root_of (s : Space) : Node :=
  mkNode (0, 0) (dim s) (refs_of (objects s)) [].

(** [Space.find_collisions]: the space with its collisions list extended. *)
Definition find_collisions (fuel : nat) (s : Space) : result Space :=
  let root := root_of s in
  tree <- recursive_subdivide fuel (objects s) root QUADTREE_K ;;
  Ok {| objects := objects s; dim := dim s;
        collisions := traverse (objects s) tree (collisions s) |}.

(** ** Resolution of one pair *)

(** Lines 161-167: the two positions after the bodies are pushed apart. *)
Definition separate (a b : Object) : result (vec * vec) :=
  let diff := vsub (pos b) (pos a) in
  v <- vdiv diff (norm diff) ;;
  let ol := (size a + size b - dist b a) / 2 in
  Ok (vsub (pos a) (vscale ol v), vadd (pos b) (vscale ol v)).

(** Lines 170-172. *)
Definition rotation (a b : Object) : mat :=
  let diff := vsub (pos b) (pos a) in
  let theta := arctan2 (- snd diff) (fst diff) in
  ((cos theta, - sin theta), (sin theta, cos theta)).

(** Lines 177-181: the exchange along the x-axis of the rotated frame,
    on the two rotated velocities. *)
Definition exchange (m1 m2 : R) (v1 v2 : vec) : result (vec * vec) :=
  let m := m1 + m2 in
  vf1 <- sdiv ((m1 - m2) * fst v1 + 2 * m2 * fst v2) m ;;
  vf2 <- sdiv ((m2 - m1) * fst v2 + 2 * m1 * fst v1) m ;;
  Ok ((vf1, snd v1), (vf2, snd v2)).

(** The body of the loop of [handle_collisions] on the two bodies of a
    collision, without the final removal. *)
Definition resolve_pair (a b : Object) : result (Object * Object) :=
  ps <- separate a b ;;
  let rot := rotation a b in
  vs <- exchange (mass a) (mass b) (matmul rot (vel a)) (matmul rot (vel b)) ;;
  let invrot := transpose rot in
  Ok (set_vel (set_pos a (fst ps)) (matmul invrot (fst vs)),
      set_vel (set_pos b (snd ps)) (matmul invrot (snd vs))).

Definition resolve (c : Collision) (st : store) : result store :=
  r <- resolve_pair (deref st (obj1 c)) (deref st (obj2 c)) ;;
  Ok (set_nth (obj2 c) (snd r) (set_nth (obj1 c) (fst r) st)).

(** The [for c in self.collisions] loop.  A Python list iterator is an
    index into the live list: the loop reads element [i], runs the body
    (which removes from that same list) and goes on at [i + 1], until
    [i] is past the end.  [n] bounds the number of iterations. *)
Fixpoint resolve_from (n : nat) (i : nat) (s : Space) : result Space :=
  match nth_error (collisions s) i with
  | None => Ok s
  | Some c =>
      match n with
      | O => Ok s
      | S n' =>
          st <- resolve c (objects s) ;;
          resolve_from n' (S i)
            {| objects := st; dim := dim s;
               collisions := list_remove c (collisions s) |}
      end
  end.

Definition handle_collisions (fuel : nat) (s : Space) : result Space :=
  s1 <- find_collisions fuel s ;;
  resolve_from (length (collisions s1)) 0 s1.

(** ** Integration and the walls *)

(** The body of the loop of [move_objects] on one body. *)
Definition move_object (d : vec) (o : Object) : Object :=
  let p0 := vadd (pos o) (vel o) in
  let x := fst p0 in
  let y := snd p0 in
  let '(p1, v1) :=
    if Rleb (snd d - size o) y
    then ((fst p0, snd d - size o), (fst (vel o), Rmin 0 (- snd (vel o))))
    else (p0, vel o) in
  let '(p2, v2) :=
    if Rleb x (size o)
    then ((size o, snd p1), (Rmax 0 (- fst v1), snd v1))
    else (p1, v1) in
  let '(p3, v3) :=
    if Rleb (fst d - size o) x
    then ((fst d - size o, snd p2), (Rmin 0 (- fst v2), snd v2))
    else (p2, v2) in
  let '(p4, v4) :=
    if Rleb y (size o)
    then ((fst p3, size o), (fst v3, Rmax 0 (- snd v3)))
    else (p3, v3) in
  set_vel (set_pos o p4) v4.

Definition move_objects (s : Space) : Space :=
  {| objects := map (move_object (dim s)) (objects s);
     dim := dim s; collisions := collisions s |}.

(** [Space.update]: one tick. *)
Definition update (fuel : nat) (s : Space) : result Space :=
  handle_collisions fuel (move_objects s).

(** * Vocabulary of the properties *)

(** The overlap test as a proposition. *)
Definition Overlaps (p sz : vec) (c : vec) (r : R) : Prop :=
  fst p <= fst c + r /\ fst c - r < fst p + fst sz
  /\ snd p <= snd c + r /\ snd c - r < snd p + snd sz.

(** A cluster: every listed body has center [c] and radius [r]. *)
Definition cluster (st : store) (c : vec) (r : R) (pts : list ref) : Prop :=
  Forall (fun i => pos (deref st i) = c /\ size (deref st i) = r) pts.

(** The fields of a body that no phase should write. *)
Definition frame (o : Object) : R * R * (R * R * R) := (size o, mass o, color o).

(** The number of pending collisions equal to [c]. *)
Definition countC (c : Collision) (l : list Collision) : nat :=
  length (filter (fun x => Collision_eq x c) l).

(** No pair is pending twice. *)
Definition pending_once (l : list Collision) : Prop :=
  forall c : Collision, (countC c l <= 1)%nat.

(** A body of non-negative radius whose bounding square meets the
    rectangle of extent [d] at the origin. *)
Definition well_placed (d : vec) (o : Object) : Prop :=
  0 <= size o /\ Overlaps (0, 0) d (pos o) (size o).

(** The point [q] lies in the rectangle of corner [p] and extent [sz]. *)
Definition in_rect (p sz q : vec) : Prop :=
  fst p <= fst q < fst p + fst sz /\ snd p <= snd q < snd p + snd sz.

(** The point [q] lies in the bounding square of [o]. *)
Definition in_square (o : Object) (q : vec) : Prop :=
  fst (pos o) - size o <= fst q <= fst (pos o) + size o
  /\ snd (pos o) - size o <= snd q <= snd (pos o) + size o.

(** The loop of [traverse] over the children of a node. *)
Definition traverse_children (st : store) (l : list Node) (acc : list Collision)
  : list Collision :=
  fold_left (fun a child => traverse st child a) l acc.

(** Induction on a tree: a property of every child gives the property of
    the node. *)
Fixpoint Node_induction (P : Node -> Prop)
  (H : forall p sz pts ch, Forall P ch -> P (mkNode p sz pts ch))
  (n : Node) : P n :=
  match n with
  | mkNode p sz pts ch =>
      H p sz pts ch
        ((fix each (l : list Node) : Forall P l :=
            match l with
            | [] => Forall_nil P
            | x :: l' => Forall_cons x (Node_induction P H x) (each l')
            end) ch)
  end.

(** The square of the norm of a vector. *)
Definition sqnorm (v : vec) : R := fst v * fst v + snd v * snd v.

(** The scalar product. *)
Definition dot (u v : vec) : R := fst u * fst v + snd u * snd v.

(** The unit vector from the centre of [a] to the centre of [b]. *)
Definition unit_normal (a b : Object) : vec :=
  (fst (vsub (pos b) (pos a)) / dist b a, snd (vsub (pos b) (pos a)) / dist b a).

(** The nodes without children of a tree, left to right. *)
Fixpoint leaves (t : Node) : list Node :=
  match t with
  | mkNode p sz pts ch =>
      match ch with
      | [] => [t]
      | _ :: _ =>
          (fix each (l : list Node) : list Node :=
             match l with
             | [] => []
             | c :: l' => leaves c ++ each l'
             end) ch
      end
  end.

(** A tree in which a node is either a leaf of at most [k] bodies or has no
    body and four children, the quadrants of its rectangle. *)
Inductive quadtree (k : nat) : Node -> Prop :=
| quadtree_leaf (p sz : vec) (pts : list ref) :
    (length pts <= k)%nat -> quadtree k (mkNode p sz pts [])
| quadtree_node (p sz : vec) (x1 x2 x3 x4 : Node) :
    quadtree k x1 -> quadtree k x2 -> quadtree k x3 -> quadtree k x4 ->
    node_pos x1 = p ->
    node_pos x2 = (fst p + fst (half sz), snd p) ->
    node_pos x3 = (fst p, snd p + snd (half sz)) ->
    node_pos x4 = (fst p + fst (half sz), snd p + snd (half sz)) ->
    node_size x1 = half sz -> node_size x2 = half sz ->
    node_size x3 = half sz -> node_size x4 = half sz ->
    quadtree k (mkNode p sz [] [x1; x2; x3; x4]).

(** A pair of distinct bodies of [U] that collide in the store [st]. *)
Definition colliding_pair (st : store) (U : list ref) (c : Collision) : Prop :=
  obj1 c <> obj2 c /\ In (obj1 c) U /\ In (obj2 c) U
  /\ collides (deref st (obj1 c)) (deref st (obj2 c)) = true.

(** [l'] is [l] followed by colliding pairs only. *)
Definition appends (st : store) (U : list ref) (l l' : list Collision) : Prop :=
  exists new : list Collision, l' = l ++ new /\ Forall (colliding_pair st U) new.

(** The elements at positions 0, 2, 4, ... of a list, and those at
    positions 1, 3, 5, ... *)
Fixpoint evens {A : Type} (l : list A) : list A :=
  match l with
  | [] => []
  | x :: t => x :: match t with
                   | [] => []
                   | _ :: t' => evens t'
                   end
  end.

Fixpoint odds {A : Type} (l : list A) : list A :=
  match l with
  | [] => []
  | _ :: t => match t with
              | [] => []
              | y :: t' => y :: odds t'
              end
  end.

(** The resolutions of a list of collisions, one after the other. *)
Fixpoint resolve_all (l : list Collision) (st : store) : result store :=
  match l with
  | [] => Ok st
  | c :: t => st' <- resolve c st ;; resolve_all t st'
  end.

(** The collision holds the bodies [i] and [j], in either order. *)
Definition same_pair (i j : ref) (c : Collision) : bool :=
  ((obj1 c =? i)%nat && (obj2 c =? j)%nat)
  || ((obj1 c =? j)%nat && (obj2 c =? i)%nat).

(** The number of collisions of a list that hold the bodies [i] and [j]. *)
Definition pair_count (i j : ref) (l : list Collision) : nat :=
  length (filter (same_pair i j) l).

(** No two collisions of the list hold the same two bodies. *)
Definition no_pair_twice (l : list Collision) : Prop :=
  forall i j : ref, (pair_count i j l <= 1)%nat.

(** The extent [sz] halved [D] times. *)
Definition scaled (sz : vec) (D : nat) : vec := (fst sz / 2 ^ D, snd sz / 2 ^ D).

(** No rectangle of extent [sz / 2^D], wherever it lies, meets the
    bounding squares of more than [k] of the bodies [pts]: any bodies of
    [pts], each taken once, whose squares all meet one such rectangle are
    at most [k]. *)
Definition sparse (st : store) (k : nat) (pts : list ref) (sz : vec) (D : nat)
  : Prop :=
  forall (q : vec) (sub : list ref),
    NoDup sub -> incl sub pts ->
    Forall (fun i => Overlaps q (scaled sz D) (pos (deref st i)) (size (deref st i)))
      sub ->
    (length sub <= k)%nat.

(** The same of the lists that [inside] returns. *)
Definition thin (st : store) (k : nat) (pts : list ref) (sz : vec) (D : nat)
  : Prop :=
  forall q : vec, (length (inside st q (scaled sz D) pts) <= k)%nat.

(** * Configurations used as examples *)

(** A body of radius 10 and mass 10 at rest. *)
Definition ball (p : vec) : Object :=
  {| pos := p; vel := (0, 0); size := 10; color := (200, 200, 200); mass := 10 |}.

(** Six bodies for an 800 x 800 space: one near (300, 300), five in the
    lower right quadrant. *)
Definition six_bodies : store :=
  [ball (300, 300); ball (600, 600); ball (600, 650);
   ball (650, 600); ball (650, 650); ball (700, 700)].

Definition six_root : Node := mkNode (0, 0) (800, 800) (refs_of six_bodies) [].

(** The first child of the root: the rectangle (0,0)-(400,400) with the
    six bodies. *)
Definition six_x1 : Node := child1 six_bodies six_root.

(** Six bodies of radius 10 centred at (10, 10), where [move_objects]
    leaves bodies that were pushed into the corner. *)
Definition corner_cluster : store := repeat (ball (10, 10)) 6.

Definition corner_root : Node :=
  mkNode (0, 0) (800, 800) (refs_of corner_cluster) [].

(** The pair of the scenario of the specification. *)
Definition scenario_a : Object :=
  {| pos := (0, 0); vel := (5, 0); size := 10;
     color := (200, 200, 200); mass := 10 |}.

Definition scenario_b : Object :=
  {| pos := (18, 0); vel := (-5, 0); size := 10;
     color := (200, 200, 200); mass := 20 |}.

(** A body of radius 10 resting against the left wall and a second one
    overlapping it from the right. *)
Definition wall_pair : Space :=
  {| objects := [ball (10, 400); ball (25, 400)]; dim := (800, 800);
     collisions := [] |}.

(** Two bodies with the same centre. *)
Definition coincident_pair : Space :=
  {| objects := [ball (400, 400); ball (400, 400)]; dim := (800, 800);
     collisions := [] |}.

(** The space of the six coincident bodies. *)
Definition corner_space : Space :=
  {| objects := corner_cluster; dim := (800, 800); collisions := [] |}.

(** Two overlapping pairs far from each other. *)
Definition two_pairs : Space :=
  {| objects := [ball (100, 100); ball (115, 100);
                 ball (300, 300); ball (315, 300)];
     dim := (800, 800); collisions := [] |}.

(** Bodies 0 and 1 overlap each other and the line x = 400; four more
    bodies make the root subdivide. *)
Definition straddling : Space :=
  {| objects := [ball (395, 100); ball (405, 100); ball (100, 600);
                 ball (200, 700); ball (600, 600); ball (700, 700)];
     dim := (800, 800); collisions := [] |}.

Definition straddling_x1 : Node := child1 (objects straddling) (root_of straddling).

(** The pair of the scenario after its resolution. *)
Definition scenario_a' : Object :=
  {| pos := (-1, 0); vel := (-25 / 3, 0); size := 10;
     color := (200, 200, 200); mass := 10 |}.

Definition scenario_b' : Object :=
  {| pos := (19, 0); vel := (5 / 3, 0); size := 10;
     color := (200, 200, 200); mass := 20 |}.

(** The tree of [straddling]. *)
Definition straddling_tree : Node :=
  mkNode (0, 0) (800, 800) []
    [mkNode (node_pos straddling_x1) (node_size straddling_x1) []
       [child1 (objects straddling) straddling_x1;
        child2 (objects straddling) straddling_x1;
        child3 (objects straddling) straddling_x1;
        child4 (objects straddling) straddling_x1];
     child2 (objects straddling) (root_of straddling);
     child3 (objects straddling) (root_of straddling);
     child4 (objects straddling) (root_of straddling)].

(** A body in the middle of the space, moving. *)
Definition flying : Object :=
  {| pos := (400, 400); vel := (3, -4); size := 10;
     color := (200, 200, 200); mass := 10 |}.

(** Two bodies far from each other. *)
Definition apart : Space :=
  {| objects := [ball (100, 100); ball (300, 300)]; dim := (800, 800);
     collisions := [] |}.

(** Six bodies, the first two overlapping each other outside the region. *)
Definition outside_pair : Space :=
  {| objects := [ball (-100, -100); ball (-100, -85); ball (100, 600);
                 ball (200, 700); ball (600, 600); ball (700, 700)];
     dim := (800, 800); collisions := [] |}.

(** The space that [handle_collisions] leaves of [two_pairs]: the pair
    (2,3) is pending, bodies 0 and 1 touch. *)
Definition pending_pair : Space :=
  {| objects := [ball (195 / 2, 100); ball (235 / 2, 100);
                 ball (300, 300); ball (315, 300)];
     dim := (800, 800);
     collisions := [mkCollision 2%nat 3%nat] |}.

(** [pending_pair] after one tick. *)
Definition pending_pair_after : Space :=
  {| objects := [ball (195 / 2, 100); ball (235 / 2, 100);
                 ball (595 / 2, 300); ball (635 / 2, 300)];
     dim := (800, 800);
     collisions := [mkCollision 0%nat 1%nat] |}.

(** * Properties *)

(** ** Comparisons *)

Lemma Rleb_true_iff (x y : R) : Rleb x y = true <-> x <= y.
Proof. unfold Rleb; destruct (Rle_dec x y); split; intros; auto; discriminate. Qed.

Lemma Rltb_true_iff (x y : R) : Rltb x y = true <-> x < y.
Proof. unfold Rltb; destruct (Rlt_dec x y); split; intros; auto; discriminate. Qed.

Lemma Rleb_false_iff (x y : R) : Rleb x y = false <-> y < x.
Proof.
  unfold Rleb; destruct (Rle_dec x y); split; intros; try discriminate; lra.
Qed.

Lemma Rltb_false_iff (x y : R) : Rltb x y = false <-> y <= x.
Proof.
  unfold Rltb; destruct (Rlt_dec x y); split; intros; try discriminate; lra.
Qed.

Lemma overlaps_true_iff (p sz : vec) (o : Object) :
  overlaps p sz o = true <-> Overlaps p sz (pos o) (size o).
Proof.
  unfold overlaps, Overlaps.
  rewrite !andb_true_iff, !Rleb_true_iff, !Rltb_true_iff. tauto.
Qed.

Lemma overlaps_false_iff (p sz : vec) (o : Object) :
  overlaps p sz o = false <-> ~ Overlaps p sz (pos o) (size o).
Proof.
  rewrite <- overlaps_true_iff. destruct (overlaps p sz o); split; intros H;
    try discriminate; try reflexivity; try (exfalso; auto; fail).
Qed.

Lemma inside_In (st : store) (p sz : vec) (l : list ref) (i : ref) :
  In i (inside st p sz l) <->
  In i l /\ Overlaps p sz (pos (deref st i)) (size (deref st i)).
Proof. unfold inside. rewrite filter_In, overlaps_true_iff. tauto. Qed.

Lemma filter_all {A : Type} (f : A -> bool) (l : list A) :
  Forall (fun x => f x = true) l -> filter f l = l.
Proof.
  induction 1 as [|x l Hx _ IH]; simpl; [reflexivity|].
  rewrite Hx, IH; reflexivity.
Qed.

(** ** The quadtree build *)

Lemma bind_Ok {A B : Type} (r : result A) (f : A -> result B) (b : B) :
  bind r f = Ok b <-> exists a, r = Ok a /\ f a = Ok b.
Proof.
  destruct r; simpl; split.
  - intros H; eauto.
  - intros [a' [E H]]; inversion E; subst; assumption.
  - discriminate.
  - intros [a' [E _]]; discriminate.
  - discriminate.
  - intros [a' [E _]]; discriminate.
Qed.

(** The build performs no division: it ends in a tree or in the
    recursion limit. *)
Lemma recursive_subdivide_not_nan (fuel : nat) (st : store) (k : nat) :
  forall node, recursive_subdivide fuel st node k <> NotANumber.
Proof.
  induction fuel as [|fuel IH]; intros node; simpl; [discriminate|].
  destruct (length (points node) <=? k)%nat; [discriminate|].
  pose proof (IH (child1 st node)) as H1.
  pose proof (IH (child2 st node)) as H2.
  pose proof (IH (child3 st node)) as H3.
  pose proof (IH (child4 st node)) as H4.
  destruct (recursive_subdivide fuel st (child1 st node) k); simpl; try easy.
  destruct (recursive_subdivide fuel st (child2 st node) k); simpl; try easy.
  destruct (recursive_subdivide fuel st (child3 st node) k); simpl; try easy.
  destruct (recursive_subdivide fuel st (child4 st node) k); simpl; easy.
Qed.

(** A node of at most [k] bodies is returned as it is, at the first call. *)
Lemma recursive_subdivide_small (fuel : nat) (st : store) (node : Node) (k : nat) :
  (length (points node) <= k)%nat ->
  recursive_subdivide (S fuel) st node k = Ok node.
Proof.
  intros H. simpl. apply Nat.leb_le in H. rewrite H. reflexivity.
Qed.

(** More fuel does not change a result that was reached. *)
Lemma recursive_subdivide_fuel_mono (st : store) (k : nat) :
  forall fuel node t,
    recursive_subdivide fuel st node k = Ok t ->
    forall fuel', (fuel <= fuel')%nat ->
    recursive_subdivide fuel' st node k = Ok t.
Proof.
  induction fuel as [|fuel IH]; intros node t H fuel' Hle; [discriminate|].
  destruct fuel' as [|fuel']; [lia|].
  simpl in *. destruct (length (points node) <=? k)%nat; [assumption|].
  apply bind_Ok in H; destruct H as [x1 [E1 H]].
  apply bind_Ok in H; destruct H as [x2 [E2 H]].
  apply bind_Ok in H; destruct H as [x3 [E3 H]].
  apply bind_Ok in H; destruct H as [x4 [E4 H]].
  rewrite (IH _ _ E1 fuel'), (IH _ _ E2 fuel'), (IH _ _ E3 fuel'),
    (IH _ _ E4 fuel') by lia.
  exact H.
Qed.

Lemma inside_cluster (st : store) (c : vec) (r : R) (pts : list ref) (p sz : vec) :
  cluster st c r pts -> Overlaps p sz c r -> inside st p sz pts = pts.
Proof.
  intros Hc Ho. unfold inside. apply filter_all.
  eapply Forall_impl; [|exact Hc]. intros i [Hp Hs]; simpl.
  apply overlaps_true_iff. rewrite Hp, Hs. exact Ho.
Qed.

(** A square that overlaps a rectangle overlaps one of its quadrants. *)
Lemma Overlaps_quadrant (p sz c : vec) (r : R) :
  0 <= r -> Overlaps p sz c r ->
  Overlaps p (half sz) c r
  \/ Overlaps (fst p + fst (half sz), snd p) (half sz) c r
  \/ Overlaps (fst p, snd p + snd (half sz)) (half sz) c r
  \/ Overlaps (fst p + fst (half sz), snd p + snd (half sz)) (half sz) c r.
Proof.
  unfold Overlaps, half; simpl. intros Hr (H1 & H2 & H3 & H4).
  destruct (Rlt_dec (fst c - r) (fst p + fst sz / 2)) as [Hx|Hx];
    destruct (Rlt_dec (snd c - r) (snd p + snd sz / 2)) as [Hy|Hy].
  - left. lra.
  - right; right; left. lra.
  - right; left. lra.
  - right; right; right. lra.
Qed.

(** With more than [k] coincident bodies that overlap the rectangle of
    a node, no depth of recursion suffices. *)
Lemma cluster_diverges (st : store) (k : nat) (c : vec) (r : R) (pts : list ref) :
  0 <= r -> cluster st c r pts -> (k < length pts)%nat ->
  forall fuel p sz ch,
    Overlaps p sz c r ->
    recursive_subdivide fuel st (mkNode p sz pts ch) k = RecursionError.
Proof.
  intros Hr Hc Hk.
  assert (Hno : forall fuel p sz ch t, Overlaps p sz c r ->
             recursive_subdivide fuel st (mkNode p sz pts ch) k <> Ok t).
  { induction fuel as [|fuel IH]; intros p sz ch t Ho; simpl; [discriminate|].
    apply Nat.leb_gt in Hk. rewrite Hk. intros H.
    apply bind_Ok in H; destruct H as [x1 [E1 H]].
    apply bind_Ok in H; destruct H as [x2 [E2 H]].
    apply bind_Ok in H; destruct H as [x3 [E3 H]].
    apply bind_Ok in H; destruct H as [x4 [E4 _]].
    cbv beta iota zeta delta [child1 child2 child3 child4 node_pos node_size points]
      in E1, E2, E3, E4.
    rewrite (inside_cluster st c r pts p sz Hc Ho) in E1.
    destruct (Overlaps_quadrant p sz c r Hr Ho) as [Q|[Q|[Q|Q]]].
    - exact (IH _ _ _ _ Q E1).
    - rewrite (inside_cluster st c r pts _ _ Hc Q) in E2. exact (IH _ _ _ _ Q E2).
    - rewrite (inside_cluster st c r pts _ _ Hc Q) in E3. exact (IH _ _ _ _ Q E3).
    - rewrite (inside_cluster st c r pts _ _ Hc Q) in E4. exact (IH _ _ _ _ Q E4). }
  intros fuel p sz ch Ho.
  pose proof (Hno fuel p sz ch) as H1.
  pose proof (recursive_subdivide_not_nan fuel st k (mkNode p sz pts ch)) as H2.
  destruct (recursive_subdivide fuel st (mkNode p sz pts ch) k); try easy.
  exfalso; eapply H1; eauto.
Qed.

Lemma recursive_subdivide_S (fuel : nat) (st : store) (node : Node) (k : nat) :
  recursive_subdivide (S fuel) st node k =
  if (length (points node) <=? k)%nat then Ok node
  else
    x1 <- recursive_subdivide fuel st (child1 st node) k ;;
    x2 <- recursive_subdivide fuel st (child2 st node) k ;;
    x3 <- recursive_subdivide fuel st (child3 st node) k ;;
    x4 <- recursive_subdivide fuel st (child4 st node) k ;;
    Ok (mkNode (node_pos node) (node_size node) [] [x1; x2; x3; x4]).
Proof. reflexivity. Qed.

(** Evaluation of the overlap test on bodies given by numerals. *)
Ltac overlaps_eval :=
  repeat match goal with
  | |- context [overlaps ?p ?sz ?o] =>
      first [ rewrite (proj2 (overlaps_true_iff p sz o))
                by (unfold Overlaps, half; simpl; lra)
            | rewrite (proj2 (overlaps_false_iff p sz o))
                by (unfold Overlaps, half; simpl; lra) ]
  end.

Ltac inside_eval :=
  cbv beta iota zeta delta
    [child1 child2 child3 child4 node_pos node_size points refs_of seq length];
  unfold inside, filter; overlaps_eval.

(** *** Six bodies in an 800 x 800 space: one near (300, 300), five
    in the lower right quadrant *)

(** C2: the four children of a node that subdivides should hold the
    bodies that overlap their own quadrant.  The first child is built
    from the rectangle of the parent instead (line 54 passes [node.size]
    where lines 60, 66 and 72 pass [size]).  In the build of [six_root],
    the node [six_x1] holds more than K bodies and subdivides; its first
    child is kept as a leaf of rectangle (0,0)-(200,200) holding body 0,
    centred at (300,300) with radius 10, which does not overlap that
    rectangle; the bodies of the parent that do overlap it are none. *)
Theorem first_child_built_from_parent_rectangle :
  recursive_subdivide 3 six_bodies six_root QUADTREE_K =
    Ok (mkNode (0, 0) (800, 800) []
          [mkNode (node_pos six_x1) (node_size six_x1) []
             [child1 six_bodies six_x1; child2 six_bodies six_x1;
              child3 six_bodies six_x1; child4 six_bodies six_x1];
           child2 six_bodies six_root; child3 six_bodies six_root;
           child4 six_bodies six_root])
  /\ (QUADTREE_K < length (points six_x1))%nat
  /\ node_size (child1 six_bodies six_x1) = half (node_size six_x1)
  /\ points (child1 six_bodies six_x1) = [0%nat]
  /\ overlaps (node_pos (child1 six_bodies six_x1))
              (node_size (child1 six_bodies six_x1))
              (deref six_bodies 0%nat) = false
  /\ inside six_bodies (node_pos six_x1) (half (node_size six_x1))
            (points six_x1) = [].
Proof.
  assert (P1 : points six_x1 = [0; 1; 2; 3; 4; 5]%nat).
  { unfold six_x1, six_root, six_bodies. inside_eval. reflexivity. }
  assert (P2 : points (child2 six_bodies six_root) = []).
  { unfold six_root, six_bodies. inside_eval. reflexivity. }
  assert (P3 : points (child3 six_bodies six_root) = []).
  { unfold six_root, six_bodies. inside_eval. reflexivity. }
  assert (P4 : points (child4 six_bodies six_root) = [1; 2; 3; 4; 5]%nat).
  { unfold six_root, six_bodies. inside_eval. reflexivity. }
  assert (Q1 : points (child1 six_bodies six_x1) = [0%nat]).
  { unfold child1 at 1. unfold points at 1. rewrite P1.
    unfold six_x1, six_root, six_bodies. inside_eval. reflexivity. }
  assert (Q2 : points (child2 six_bodies six_x1) = []).
  { unfold child2 at 1. unfold points at 1. rewrite P1.
    unfold six_x1, six_root, six_bodies. inside_eval. reflexivity. }
  assert (Q3 : points (child3 six_bodies six_x1) = []).
  { unfold child3 at 1. unfold points at 1. rewrite P1.
    unfold six_x1, six_root, six_bodies. inside_eval. reflexivity. }
  assert (Q4 : points (child4 six_bodies six_x1) = [0%nat]).
  { unfold child4 at 1. unfold points at 1. rewrite P1.
    unfold six_x1, six_root, six_bodies. inside_eval. reflexivity. }
  split; [|split; [|split; [|split; [|split]]]].
  - rewrite recursive_subdivide_S.
    replace (length (points six_root) <=? QUADTREE_K)%nat with false by reflexivity.
    fold six_x1. rewrite (recursive_subdivide_S 1 six_bodies six_x1).
    rewrite P1.
    replace (length [0; 1; 2; 3; 4; 5]%nat <=? QUADTREE_K)%nat with false
      by reflexivity.
    rewrite !recursive_subdivide_small
      by (rewrite ?Q1, ?Q2, ?Q3, ?Q4, ?P2, ?P3, ?P4; unfold QUADTREE_K; simpl; lia).
    reflexivity.
  - rewrite P1. unfold QUADTREE_K. simpl. lia.
  - reflexivity.
  - exact Q1.
  - apply overlaps_false_iff. unfold Overlaps, six_x1, six_root, half. simpl. lra.
  - rewrite P1. unfold six_x1, six_root, six_bodies. inside_eval. reflexivity.
Qed.

(** *** Six coincident bodies *)

Lemma corner_cluster_is_cluster :
  cluster corner_cluster (10, 10) 10 (refs_of corner_cluster).
Proof. unfold cluster. repeat constructor. Qed.

(** C3 (as amended): [recursive_subdivide] has no depth bound.  On a node
    whose bodies are coincident (one centre, one radius >= 0) and overlap
    its rectangle, the build returns the node as a leaf when they are at
    most [k], and never returns when they are more than [k], whatever
    recursion depth is allowed. *)
Theorem recursive_subdivide_cluster
  (st : store) (k : nat) (c : vec) (r : R) (p sz : vec) (pts : list ref)
  (ch : list Node) (fuel : nat) :
  0 <= r -> cluster st c r pts -> Overlaps p sz c r ->
  recursive_subdivide (S fuel) st (mkNode p sz pts ch) k =
  if (length pts <=? k)%nat then Ok (mkNode p sz pts ch) else RecursionError.
Proof.
  intros Hr Hc Ho. destruct (length pts <=? k)%nat eqn:E.
  - apply recursive_subdivide_small. simpl. apply Nat.leb_le; assumption.
  - apply (cluster_diverges st k c r pts Hr Hc); [|assumption].
    apply Nat.leb_gt; assumption.
Qed.

Lemma recursive_subdivide_cluster_witness :
  recursive_subdivide (S 9) corner_cluster corner_root QUADTREE_K
  = RecursionError.
Proof.
  apply (recursive_subdivide_cluster corner_cluster QUADTREE_K (10, 10) 10
           (0, 0) (800, 800) (refs_of corner_cluster) [] 9%nat).
  - lra.
  - exact corner_cluster_is_cluster.
  - unfold Overlaps; simpl; lra.
Defined.

(** The build of [corner_root] with capacity 5 returns at no depth. *)
Lemma build_of_corner_cluster_never_returns :
  ~ exists (fuel : nat) (t : Node),
      recursive_subdivide fuel corner_cluster corner_root QUADTREE_K = Ok t.
Proof.
  intros [fuel [t H]]. unfold corner_root in H.
  rewrite (cluster_diverges corner_cluster QUADTREE_K (10, 10) 10
             (refs_of corner_cluster)) in H.
  - discriminate.
  - lra.
  - exact corner_cluster_is_cluster.
  - unfold QUADTREE_K; simpl; lia.
  - unfold Overlaps; simpl; lra.
Qed.

(** ** Construction *)

(** C7 (as amended): construction checks nothing.  [Object.__init__] and
    [Space.__init__] store their arguments as they come, whatever their
    sign, and the leaf capacity is the constant 5. *)
Theorem construction_never_fails
  (p : vec) (sz : R) (v : vec) (m : R) (c : R * R * R) (objs : store) (d : vec) :
  Object_init p sz v m c
    = Ok {| pos := p; vel := v; size := sz; color := c; mass := m |}
  /\ Space_init objs d = Ok {| objects := objs; dim := d; collisions := [] |}
  /\ QUADTREE_K = 5%nat.
Proof. repeat split. Qed.

(** A body of radius -1 and mass 0, and a space of extent (-800, 0)
    around it, are constructed. *)
Lemma invalid_configuration_is_constructed :
  exists (o : Object) (s : Space),
    Object_init (0, 0) (-1) (0, 0) 0 (200, 200, 200) = Ok o
    /\ Space_init [o] (-800, 0) = Ok s
    /\ size o <= 0 /\ mass o <= 0 /\ fst (dim s) <= 0 /\ snd (dim s) <= 0.
Proof.
  eexists; eexists. split; [reflexivity|]. split; [reflexivity|].
  simpl. lra.
Qed.

(** ** The exchange of velocities *)

Lemma sdiv_Ok (x c : R) : c <> 0 -> sdiv x c = Ok (x / c).
Proof. intros H. unfold sdiv. destruct (Req_dec_T c 0); [contradiction|reflexivity]. Qed.

Lemma vdiv_Ok (a : vec) (c : R) : c <> 0 -> vdiv a c = Ok (fst a / c, snd a / c).
Proof. intros H. unfold vdiv. destruct (Req_dec_T c 0); [contradiction|reflexivity]. Qed.

Lemma exchange_Ok (m1 m2 : R) (v1 v2 : vec) :
  m1 + m2 <> 0 ->
  exchange m1 m2 v1 v2 =
  Ok ((((m1 - m2) * fst v1 + 2 * m2 * fst v2) / (m1 + m2), snd v1),
      (((m2 - m1) * fst v2 + 2 * m1 * fst v1) / (m1 + m2), snd v2)).
Proof.
  intros H. unfold exchange. rewrite !sdiv_Ok by assumption. reflexivity.
Qed.

(** C8: the exchange on the rotated velocities [v1], [v2] of a pair of
    masses [m1], [m2] keeps [m1 * v1.x + m2 * v2.x], keeps both y
    components, and swaps the x components when the masses are equal. *)
Theorem exchange_conserves_momentum (m1 m2 : R) (v1 v2 : vec) :
  m1 + m2 <> 0 ->
  exists w1 w2 : vec,
    exchange m1 m2 v1 v2 = Ok (w1, w2)
    /\ m1 * fst w1 + m2 * fst w2 = m1 * fst v1 + m2 * fst v2
    /\ snd w1 = snd v1 /\ snd w2 = snd v2
    /\ (m1 = m2 -> fst w1 = fst v2 /\ fst w2 = fst v1).
Proof.
  intros H. eexists; eexists. split; [apply exchange_Ok; assumption|].
  simpl. repeat split.
  - field. assumption.
  - subst m2. field. lra.
  - subst m2. field. lra.
Qed.

Lemma exchange_conserves_momentum_witness :
  exists w1 w2 : vec,
    exchange 10 20 (5, 0) (-5, 0) = Ok (w1, w2)
    /\ 10 * fst w1 + 20 * fst w2 = 10 * fst (5, 0) + 20 * fst (-5, 0)
    /\ snd w1 = snd (5, 0) /\ snd w2 = snd (-5, 0)
    /\ (10 = 20 -> fst w1 = fst (-5, 0) /\ fst w2 = fst (5, 0)).
Proof. apply (exchange_conserves_momentum 10 20 (5, 0) (-5, 0)). lra. Defined.

(** ** Resolution of one pair *)

Lemma norm_sq (x y d : R) : 0 <= d -> d * d = x * x + y * y -> norm (x, y) = d.
Proof. intros Hd H. unfold norm; simpl. apply sqrt_lem_1; nra. Qed.

Lemma norm_nonneg (a : vec) : 0 <= norm a.
Proof. unfold norm. apply sqrt_pos. Qed.

Lemma norm_sqr (a : vec) : norm a * norm a = fst a * fst a + snd a * snd a.
Proof. unfold norm. apply sqrt_sqrt. nra. Qed.

Lemma norm_zero_iff (a : vec) : norm a = 0 <-> a = (0, 0).
Proof.
  split.
  - intros H. pose proof (norm_sqr a) as Hs. rewrite H in Hs.
    destruct a as [x y]; simpl in *. f_equal; nra.
  - intros ->. apply norm_sq; lra.
Qed.

Lemma vsub_zero_iff (a b : vec) : vsub b a = (0, 0) <-> a = b.
Proof.
  destruct a as [ax ay], b as [bx by']; unfold vsub; simpl. split.
  - intros H; inversion H. f_equal; lra.
  - intros H; inversion H; subst. f_equal; lra.
Qed.

Lemma arctan2_pos_axis (x : R) : 0 < x -> arctan2 (- 0) x = 0.
Proof.
  intros H. unfold arctan2. destruct (Rlt_dec 0 x); [|contradiction].
  replace (- 0 / x) with 0 by (field; lra). apply atan_0.
Qed.

Lemma mkObject_eq (px py vx vy px' py' vx' vy' s m : R) (c : R * R * R) :
  px = px' -> py = py' -> vx = vx' -> vy = vy' ->
  mkObject (px, py) (vx, vy) s c m = mkObject (px', py') (vx', vy') s c m.
Proof. intros; subst; reflexivity. Qed.

(** The resolution of a pair whose centres lie on a horizontal line,
    the first to the left of the second: the rotation is the identity. *)
Lemma resolve_pair_x_axis (a b : Object) :
  snd (pos a) = snd (pos b) -> fst (pos a) < fst (pos b) ->
  mass a + mass b <> 0 ->
  resolve_pair a b =
  Ok ({| pos := (fst (pos a)
                 - (size a + size b - (fst (pos b) - fst (pos a))) / 2,
                 snd (pos a));
         vel := (((mass a - mass b) * fst (vel a) + 2 * mass b * fst (vel b))
                 / (mass a + mass b),
                 snd (vel a));
         size := size a; color := color a; mass := mass a |},
      {| pos := (fst (pos b)
                 + (size a + size b - (fst (pos b) - fst (pos a))) / 2,
                 snd (pos b));
         vel := (((mass b - mass a) * fst (vel b) + 2 * mass a * fst (vel a))
                 / (mass a + mass b),
                 snd (vel b));
         size := size b; color := color b; mass := mass b |}).
Proof.
  intros Hy Hx Hm. unfold resolve_pair, separate, rotation, dist.
  assert (Hd : vsub (pos b) (pos a) = (fst (pos b) - fst (pos a), 0)).
  { unfold vsub. f_equal. lra. }
  rewrite Hd.
  assert (Hn : norm (fst (pos b) - fst (pos a), 0) = fst (pos b) - fst (pos a))
    by (apply norm_sq; lra).
  rewrite Hn. rewrite vdiv_Ok by lra. simpl bind. simpl snd. simpl fst.
  rewrite arctan2_pos_axis by lra. rewrite cos_0, sin_0.
  rewrite exchange_Ok by assumption. simpl bind.
  unfold set_vel, set_pos, matmul, transpose, vsub, vadd, vscale. simpl.
  f_equal. f_equal; apply mkObject_eq; field; lra.
Qed.

Lemma scenario_eval :
  resolve_pair scenario_a scenario_b =
  Ok ({| pos := (-1, 0); vel := (-25 / 3, 0); size := 10;
         color := (200, 200, 200); mass := 10 |},
      {| pos := (19, 0); vel := (5 / 3, 0); size := 10;
         color := (200, 200, 200); mass := 20 |}).
Proof.
  rewrite resolve_pair_x_axis by (simpl; lra).
  simpl. f_equal. f_equal; apply mkObject_eq; lra.
Qed.

(** C6 (as amended): resolving the pair of the scenario once puts the
    bodies at (-1, 0) and (19, 0), at distance 20 on the x-axis, with
    velocities vf_a.x = -25/3 and vf_b.x = 5/3. *)
Theorem scenario_resolution :
  exists a' b' : Object,
    resolve_pair scenario_a scenario_b = Ok (a', b')
    /\ pos a' = (-1, 0) /\ pos b' = (19, 0) /\ dist a' b' = 20
    /\ vel a' = (-25 / 3, 0) /\ vel b' = (5 / 3, 0).
Proof.
  eexists; eexists. split; [exact scenario_eval|].
  repeat split. unfold dist, vsub; simpl. apply norm_sq; lra.
Qed.

(** The velocity of the first body after the resolution is not -10. *)
Lemma scenario_velocity_is_not_minus_ten :
  ~ exists a' b' : Object,
      resolve_pair scenario_a scenario_b = Ok (a', b')
      /\ fst (vel a') = -10.
Proof.
  intros [a' [b' [H Hv]]]. rewrite scenario_eval in H.
  inversion H; subst. simpl in Hv. lra.
Qed.

(** Resolution is undefined exactly for coincident centres or masses
    that sum to zero. *)
Lemma resolve_pair_nan_iff (a b : Object) :
  resolve_pair a b = NotANumber <-> pos a = pos b \/ mass a + mass b = 0.
Proof.
  unfold resolve_pair, separate, exchange, vdiv, sdiv.
  destruct (Req_dec_T (norm (vsub (pos b) (pos a))) 0) as [Hn|Hn]; simpl.
  - split; [intros _|reflexivity]. left.
    apply vsub_zero_iff, norm_zero_iff. exact Hn.
  - destruct (Req_dec_T (mass a + mass b) 0) as [Hm|Hm]; simpl.
    + split; [intros _; right; exact Hm|reflexivity].
    + split; [discriminate|]. intros [H|H]; [|contradiction].
      exfalso. apply Hn. apply norm_zero_iff, vsub_zero_iff. exact H.
Qed.

Lemma resolve_pair_not_recursion (a b : Object) :
  resolve_pair a b <> RecursionError.
Proof.
  unfold resolve_pair, separate, exchange, vdiv, sdiv.
  destruct (Req_dec_T (norm (vsub (pos b) (pos a))) 0); simpl; [discriminate|].
  destruct (Req_dec_T (mass a + mass b) 0); simpl; discriminate.
Qed.

Lemma resolve_not_recursion (c : Collision) (st : store) :
  resolve c st <> RecursionError.
Proof.
  unfold resolve.
  pose proof (resolve_pair_not_recursion (deref st (obj1 c)) (deref st (obj2 c))).
  destruct (resolve_pair _ _); simpl; try discriminate. contradiction.
Qed.

Lemma resolve_from_not_recursion (n : nat) :
  forall i s, resolve_from n i s <> RecursionError.
Proof.
  induction n as [|n IH]; intros i s; simpl.
  - destruct (nth_error (collisions s) i); discriminate.
  - destruct (nth_error (collisions s) i) as [c|]; [|discriminate].
    pose proof (resolve_not_recursion c (objects s)).
    destruct (resolve c (objects s)); simpl; [apply IH|contradiction|discriminate].
Qed.

Lemma update_recursion_iff (fuel : nat) (s : Space) :
  update fuel s = RecursionError <->
  recursive_subdivide fuel (objects (move_objects s)) (root_of (move_objects s))
    QUADTREE_K = RecursionError.
Proof.
  unfold update, handle_collisions, find_collisions, root_of.
  destruct (recursive_subdivide fuel _ _ QUADTREE_K) as [t| |] eqn:E; simpl.
  - split; [|discriminate]. intros H. exfalso.
    revert H. apply resolve_from_not_recursion.
  - tauto.
  - split; discriminate.
Qed.

(** C4 (as amended): resolution has no fallback axis.  A pair is resolved
    to numbers exactly when its centres differ and its masses do not sum
    to zero; with coincident centres the difference vector is divided by
    its zero norm and the result is not a number (numpy warns, nothing is
    raised).  A tick raises exactly when the quadtree build exceeds the
    recursion limit. *)
Theorem resolution_divides_by_the_norm :
  (forall a b : Object,
      resolve_pair a b = NotANumber <-> pos a = pos b \/ mass a + mass b = 0)
  /\ (forall (fuel : nat) (s : Space),
         update fuel s = RecursionError <->
         recursive_subdivide fuel (objects (move_objects s))
           (root_of (move_objects s)) QUADTREE_K = RecursionError).
Proof.
  split.
  - exact resolve_pair_nan_iff.
  - exact update_recursion_iff.
Qed.

(** ** The walls *)

Ltac Rleb_eval :=
  repeat match goal with
  | |- context [Rleb ?x ?y] =>
      first [ rewrite (proj2 (Rleb_true_iff x y)) by (simpl; lra)
            | rewrite (proj2 (Rleb_false_iff x y)) by (simpl; lra) ]
  end.

Lemma Rmax_0_opp_0 : Rmax 0 (- 0) = 0.
Proof. unfold Rmax. destruct (Rle_dec 0 (- 0)); lra. Qed.

Lemma move_object_size (d : vec) (o : Object) : size (move_object d o) = size o.
Proof.
  unfold move_object.
  destruct (Rleb (snd d - size o) _), (Rleb (fst (vadd (pos o) (vel o))) _),
    (Rleb (fst d - size o) _), (Rleb (snd (vadd (pos o) (vel o))) _);
    reflexivity.
Qed.

Lemma move_object_mass (d : vec) (o : Object) : mass (move_object d o) = mass o.
Proof.
  unfold move_object.
  destruct (Rleb (snd d - size o) _), (Rleb (fst (vadd (pos o) (vel o))) _),
    (Rleb (fst d - size o) _), (Rleb (snd (vadd (pos o) (vel o))) _);
    reflexivity.
Qed.

Lemma move_object_color (d : vec) (o : Object) : color (move_object d o) = color o.
Proof.
  unfold move_object.
  destruct (Rleb (snd d - size o) _), (Rleb (fst (vadd (pos o) (vel o))) _),
    (Rleb (fst d - size o) _), (Rleb (snd (vadd (pos o) (vel o))) _);
    reflexivity.
Qed.

(** ** Detection *)

Lemma collides_true_iff (a b : Object) :
  collides a b = true <->
  0 <= size a + size b /\
  (fst (pos a) - fst (pos b)) * (fst (pos a) - fst (pos b))
  + (snd (pos a) - snd (pos b)) * (snd (pos a) - snd (pos b))
  <= (size a + size b) * (size a + size b).
Proof.
  unfold collides, dist. rewrite Rleb_true_iff.
  pose proof (norm_nonneg (vsub (pos a) (pos b))) as Hn.
  pose proof (norm_sqr (vsub (pos a) (pos b))) as Hs.
  unfold vsub in *; simpl in *.
  split.
  - intros H. split; [lra|]. rewrite <- Hs. nra.
  - intros [H0 H]. rewrite <- Hs in H. nra.
Qed.

Lemma collides_false_iff (a b : Object) :
  collides a b = false <->
  ~ (0 <= size a + size b /\
     (fst (pos a) - fst (pos b)) * (fst (pos a) - fst (pos b))
     + (snd (pos a) - snd (pos b)) * (snd (pos a) - snd (pos b))
     <= (size a + size b) * (size a + size b)).
Proof.
  rewrite <- collides_true_iff. destruct (collides a b); split; intros H;
    try discriminate; try reflexivity; try (exfalso; auto; fail).
Qed.

Lemma cons_eq {A : Type} (x x' : A) (l l' : list A) :
  x = x' -> l = l' -> x :: l = x' :: l'.
Proof. intros; subst; reflexivity. Qed.

(** Equality of two stores of bodies given by numerals. *)
Ltac store_eq :=
  repeat (apply cons_eq; [apply mkObject_eq; first [lra | field; lra] | ]);
  reflexivity.

Lemma scan_pair_self (st : store) (i : ref) (l : list Collision) :
  scan_pair st i i l = l.
Proof. unfold scan_pair. rewrite Nat.eqb_refl. reflexivity. Qed.

Lemma scan_pair_miss (st : store) (i j : ref) (l : list Collision) :
  collides (deref st i) (deref st j) = false -> scan_pair st i j l = l.
Proof.
  intros H. unfold scan_pair. rewrite H.
  destruct (negb (i =? j)%nat); reflexivity.
Qed.

Lemma scan_pair_known (st : store) (i j : ref) (l : list Collision) :
  Collision_in (mkCollision i j) l = true -> scan_pair st i j l = l.
Proof.
  intros H. unfold scan_pair. rewrite H.
  destruct (negb (i =? j)%nat), (collides (deref st i) (deref st j)); reflexivity.
Qed.

Lemma scan_pair_hit (st : store) (i j : ref) (l : list Collision) :
  (i =? j)%nat = false ->
  collides (deref st i) (deref st j) = true ->
  Collision_in (mkCollision i j) l = false ->
  scan_pair st i j l = l ++ [mkCollision i j].
Proof. intros H1 H2 H3. unfold scan_pair. rewrite H1, H2, H3. reflexivity. Qed.

Ltac collides_solve :=
  first [ apply collides_true_iff; simpl; lra
        | apply collides_false_iff; simpl; lra ].

(** Evaluation of the nested loops of a leaf, innermost test first. *)
Ltac scan_eval :=
  repeat match goal with
  | |- context [scan_pair ?st ?i ?j ?l] =>
      lazymatch l with
      | context [scan_pair] => fail
      | _ =>
          first [ rewrite (scan_pair_self st i l)
                | rewrite (scan_pair_known st i j l) by reflexivity
                | rewrite (scan_pair_miss st i j l) by collides_solve
                | rewrite (scan_pair_hit st i j l)
                    by first [reflexivity | collides_solve] ];
          cbn [app]
      end
  end.


(** *** Two bodies at the left wall *)

Lemma wall_pair_move : move_objects wall_pair = wall_pair.
Proof.
  unfold move_objects, wall_pair. cbn [objects dim collisions map].
  f_equal. unfold move_object, ball. Rleb_eval. simpl.
  rewrite Rmax_0_opp_0. unfold set_vel, set_pos, vadd; simpl.
  f_equal; [|f_equal]; apply mkObject_eq; lra.
Qed.

Lemma wall_pair_find :
  find_collisions 1 wall_pair =
  Ok {| objects := objects wall_pair; dim := dim wall_pair;
        collisions := [mkCollision 0%nat 1%nat] |}.
Proof.
  unfold find_collisions, root_of.
  rewrite recursive_subdivide_small by (unfold QUADTREE_K; simpl; lia).
  cbn [bind]. f_equal. f_equal.
  unfold wall_pair, refs_of. cbn [objects collisions length seq traverse].
  unfold scan_leaf. cbn [fold_left]. scan_eval. reflexivity.
Qed.

Lemma wall_pair_update :
  update 1 wall_pair =
  Ok {| objects := [ball (15 / 2, 400); ball (55 / 2, 400)];
        dim := (800, 800); collisions := [] |}.
Proof.
  unfold update, handle_collisions. rewrite wall_pair_move, wall_pair_find.
  cbn [bind collisions length resolve_from nth_error objects].
  unfold resolve. cbn [obj1 obj2]. unfold wall_pair at 1 2. cbn [objects deref nth].
  rewrite resolve_pair_x_axis by (simpl; lra).
  cbn [bind fst snd set_nth list_remove Collision_eq obj1 obj2 Nat.eqb andb orb dim].
  unfold wall_pair, ball.
  cbn [objects dim pos vel size mass color fst snd set_nth].
  f_equal. f_equal. store_eq.
Qed.

(** C5: after a whole tick every body should be inside the walls by its
    radius ([move_objects] says it ensures "that position is and stays
    within bounds").  Resolution comes after the clamp and is not clamped:
    after one tick of [wall_pair] the first body, of radius 10, is
    centred at x = 7.5, pushed through the wall that [move_objects] had
    put it against. *)
Theorem update_pushes_body_through_wall :
  exists (s' : Space) (o : Object),
    update 1 wall_pair = Ok s'
    /\ In o (objects s')
    /\ fst (pos o) < size o.
Proof.
  eexists; eexists. split; [exact wall_pair_update|].
  split; [simpl; left; reflexivity|]. simpl. lra.
Qed.

(** *** Coincident bodies *)

Lemma coincident_pair_update : update 1 coincident_pair = NotANumber.
Proof.
  unfold update, handle_collisions.
  assert (Hm : move_objects coincident_pair = coincident_pair).
  { unfold move_objects, coincident_pair. cbn [objects dim collisions map].
    f_equal. unfold move_object, ball. Rleb_eval. simpl.
    unfold set_vel, set_pos, vadd; simpl.
    f_equal; [|f_equal]; apply mkObject_eq; lra. }
  rewrite Hm.
  assert (Hf : find_collisions 1 coincident_pair =
               Ok {| objects := objects coincident_pair;
                     dim := dim coincident_pair;
                     collisions := [mkCollision 0%nat 1%nat] |}).
  { unfold find_collisions, root_of.
    rewrite recursive_subdivide_small by (unfold QUADTREE_K; simpl; lia).
    cbn [bind]. f_equal. f_equal.
    unfold coincident_pair, refs_of. cbn [objects collisions length seq traverse].
    unfold scan_leaf. cbn [fold_left]. scan_eval. reflexivity. }
  rewrite Hf.
  cbn [bind collisions length resolve_from nth_error objects].
  unfold resolve. cbn [obj1 obj2]. unfold coincident_pair. cbn [objects deref nth].
  rewrite (proj2 (resolve_pair_nan_iff _ _)) by (left; reflexivity).
  reflexivity.
Qed.

Lemma move_ball_corner :
  pos (move_object (800, 800) (ball (10, 10))) = (10, 10).
Proof. unfold move_object. Rleb_eval. reflexivity. Qed.

Lemma corner_space_update (fuel : nat) : update fuel corner_space = RecursionError.
Proof.
  apply update_recursion_iff. unfold root_of.
  apply (cluster_diverges _ QUADTREE_K (10, 10) 10).
  - lra.
  - unfold cluster, corner_space, move_objects.
    cbn [objects dim corner_cluster repeat map refs_of length seq].
    repeat constructor; cbn [deref nth];
      first [exact move_ball_corner | apply move_object_size].
  - unfold QUADTREE_K, refs_of, move_objects; simpl. lia.
  - unfold Overlaps; simpl; lra.
Qed.

(** A detected pair with coincident centres gets no fallback axis: the
    tick of [coincident_pair] ends in not-a-number positions.  And a tick
    can raise: that of [corner_space], six bodies pushed into one corner,
    returns at no recursion depth. *)
Lemma coincident_centres_are_not_guarded :
  update 1 coincident_pair = NotANumber
  /\ ~ exists (fuel : nat) (s' : Space), update fuel corner_space = Ok s'.
Proof.
  split; [exact coincident_pair_update|].
  intros [fuel [s' H]]. rewrite corner_space_update in H. discriminate.
Qed.

(** ** The resolution loop *)

Lemma list_remove_length_le (c : Collision) (l : list Collision) :
  (length (list_remove c l) <= length l)%nat.
Proof.
  induction l as [|x l IH]; simpl; [lia|].
  destruct (Collision_eq x c); simpl; lia.
Qed.

(** The bound given to the loop is never what ends it: any larger bound
    gives the same result. *)
Lemma resolve_from_bound (n : nat) :
  forall n' i s,
    (length (collisions s) - i <= n)%nat -> (n <= n')%nat ->
    resolve_from n i s = resolve_from n' i s.
Proof.
  induction n as [|n IH]; intros n' i s Hlen Hle.
  - assert (E : nth_error (collisions s) i = None)
      by (apply nth_error_None; lia).
    destruct n'; simpl; rewrite E; reflexivity.
  - destruct n' as [|n']; [lia|]. simpl.
    destruct (nth_error (collisions s) i) as [c|] eqn:E; [|reflexivity].
    destruct (resolve c (objects s)) as [st| |]; simpl; try reflexivity.
    apply IH; [|lia]. simpl.
    pose proof (list_remove_length_le c (collisions s)). lia.
Qed.

(** *** Two separate colliding pairs *)

Lemma two_pairs_find :
  find_collisions 1 two_pairs =
  Ok {| objects := objects two_pairs; dim := dim two_pairs;
        collisions := [mkCollision 0%nat 1%nat; mkCollision 2%nat 3%nat] |}.
Proof.
  unfold find_collisions, root_of.
  rewrite recursive_subdivide_small by (unfold QUADTREE_K; simpl; lia).
  cbn [bind]. f_equal. f_equal.
  unfold two_pairs, refs_of. cbn [objects collisions length seq traverse].
  unfold scan_leaf. cbn [fold_left]. scan_eval. reflexivity.
Qed.

(** C1: every detected pair should be resolved once and the pending list
    be empty after [handle_collisions].  The loop removes from the list it
    iterates over, so the iterator skips the element that slides into the
    place of the removed one.  In [two_pairs], detection finds the pairs
    (0,1) and (2,3); [handle_collisions] resolves (0,1) only: bodies 2 and
    3 are where they were, still overlapping, and the pair (2,3) is left
    in the pending list of the space. *)
Theorem handle_collisions_leaves_pair_unresolved :
  find_collisions 1 two_pairs =
    Ok {| objects := objects two_pairs; dim := dim two_pairs;
          collisions := [mkCollision 0%nat 1%nat; mkCollision 2%nat 3%nat] |}
  /\ handle_collisions 1 two_pairs =
    Ok {| objects := [ball (195 / 2, 100); ball (235 / 2, 100);
                      ball (300, 300); ball (315, 300)];
          dim := (800, 800);
          collisions := [mkCollision 2%nat 3%nat] |}.
Proof.
  split; [exact two_pairs_find|].
  unfold handle_collisions. rewrite two_pairs_find.
  cbn [bind collisions length resolve_from nth_error objects].
  unfold resolve. cbn [obj1 obj2]. unfold two_pairs at 1 2.
  cbn [objects deref nth].
  rewrite resolve_pair_x_axis by (simpl; lra).
  cbn [bind fst snd set_nth list_remove Collision_eq obj1 obj2 Nat.eqb andb orb
         dim nth_error].
  unfold two_pairs, ball.
  cbn [objects dim pos vel size mass color fst snd set_nth].
  f_equal. f_equal. store_eq.
Qed.

(** ** What a tick leaves alone *)

Lemma map_set_nth {A B : Type} (f : A -> B) (d : A) (x : A) :
  forall (l : list A) (i : nat),
    f x = f (nth i l d) -> map f (set_nth i x l) = map f l.
Proof.
  induction l as [|h t IH]; intros i H; [reflexivity|].
  destruct i as [|j]; simpl in *.
  - rewrite H. reflexivity.
  - rewrite IH by assumption. reflexivity.
Qed.

Lemma frame_nth (l l' : store) (i : nat) :
  map frame l' = map frame l -> frame (deref l' i) = frame (deref l i).
Proof.
  intros H. unfold deref.
  rewrite <- (map_nth frame l' Object_default i),
          <- (map_nth frame l Object_default i), H.
  reflexivity.
Qed.

Lemma resolve_pair_frame (a b a' b' : Object) :
  resolve_pair a b = Ok (a', b') -> frame a' = frame a /\ frame b' = frame b.
Proof.
  unfold resolve_pair. intros H.
  apply bind_Ok in H; destruct H as [ps [_ H]].
  apply bind_Ok in H; destruct H as [vs [_ H]].
  inversion H; subst. split; reflexivity.
Qed.

Lemma resolve_frame (c : Collision) (st st' : store) :
  resolve c st = Ok st' -> map frame st' = map frame st.
Proof.
  unfold resolve. intros H.
  apply bind_Ok in H; destruct H as [[a' b'] [E H]].
  inversion H; subst; clear H. simpl.
  apply resolve_pair_frame in E. destruct E as [Ea Eb].
  assert (H1 : map frame (set_nth (obj1 c) a' st) = map frame st)
    by (apply (map_set_nth frame Object_default); exact Ea).
  transitivity (map frame (set_nth (obj1 c) a' st)); [|exact H1].
  apply (map_set_nth frame Object_default).
  rewrite Eb. symmetry. apply frame_nth. exact H1.
Qed.

Lemma resolve_from_frame (n : nat) :
  forall i s s', resolve_from n i s = Ok s' ->
                 map frame (objects s') = map frame (objects s)
                 /\ dim s' = dim s.
Proof.
  induction n as [|n IH]; intros i s s' H; simpl in H.
  - destruct (nth_error (collisions s) i); inversion H; subst; auto.
  - destruct (nth_error (collisions s) i) as [c|]; [|inversion H; subst; auto].
    apply bind_Ok in H; destruct H as [st [E H]].
    apply IH in H. simpl in H. destruct H as [H Hd].
    apply resolve_frame in E. split; [congruence|assumption].
Qed.

Lemma move_objects_frame (s : Space) :
  map frame (objects (move_objects s)) = map frame (objects s).
Proof.
  unfold move_objects; simpl. rewrite map_map. apply map_ext.
  intros o. unfold frame.
  rewrite move_object_size, move_object_mass, move_object_color. reflexivity.
Qed.

Lemma find_collisions_objects (fuel : nat) (s s1 : Space) :
  find_collisions fuel s = Ok s1 -> objects s1 = objects s /\ dim s1 = dim s.
Proof.
  unfold find_collisions. intros H.
  apply bind_Ok in H; destruct H as [t [_ H]].
  inversion H; subst. split; reflexivity.
Qed.

(** C10: a tick writes positions and velocities only.  Whenever [update]
    returns, the radius, mass and colour of every body are what they were
    (and the bodies are as many); whenever [find_collisions] returns, the
    bodies are unchanged altogether. *)
Theorem update_writes_positions_and_velocities_only (fuel : nat) (s : Space) :
  match find_collisions fuel s with
  | Ok s1 => objects s1 = objects s
  | _ => True
  end
  /\ match update fuel s with
     | Ok s' => map frame (objects s') = map frame (objects s)
     | _ => True
     end.
Proof.
  split.
  - destruct (find_collisions fuel s) as [s1| |] eqn:E; [|exact I|exact I].
    apply find_collisions_objects in E. tauto.
  - destruct (update fuel s) as [s'| |] eqn:E; [|exact I|exact I].
    unfold update, handle_collisions in E.
    apply bind_Ok in E; destruct E as [s1 [E1 E2]].
    apply find_collisions_objects in E1. destruct E1 as [E1 _].
    apply resolve_from_frame in E2. destruct E2 as [E2 _].
    rewrite E2, E1. apply move_objects_frame.
Qed.

(** ** Detection reports a colliding pair once *)

Lemma Collision_eq_iff (x c : Collision) :
  Collision_eq x c = true <->
  (obj1 x = obj1 c /\ obj2 x = obj2 c) \/ (obj1 x = obj2 c /\ obj2 x = obj1 c).
Proof.
  unfold Collision_eq.
  rewrite orb_true_iff, !andb_true_iff, !Nat.eqb_eq. tauto.
Qed.

Lemma Collision_eq_refl (c : Collision) : Collision_eq c c = true.
Proof. apply Collision_eq_iff. left; split; reflexivity. Qed.

Lemma Collision_eq_transpose (i j : ref) :
  Collision_eq (mkCollision i j) (mkCollision j i) = true.
Proof. apply Collision_eq_iff. right; split; reflexivity. Qed.

Lemma Collision_eq_congr (c c' x : Collision) :
  Collision_eq c' c = true -> Collision_eq x c = Collision_eq x c'.
Proof.
  intros H. apply Collision_eq_iff in H.
  apply eq_true_iff_eq. rewrite !Collision_eq_iff.
  destruct H as [[H1 H2]|[H1 H2]]; rewrite <- H1, <- H2; tauto.
Qed.

Lemma countC_app (c : Collision) (l l' : list Collision) :
  countC c (l ++ l') = (countC c l + countC c l')%nat.
Proof. unfold countC. rewrite filter_app, length_app. reflexivity. Qed.

Lemma countC_congr (c c' : Collision) (l : list Collision) :
  Collision_eq c' c = true -> countC c l = countC c' l.
Proof.
  intros H. unfold countC. f_equal. apply filter_ext.
  intros x. apply Collision_eq_congr. exact H.
Qed.

Lemma Collision_in_false_count (c : Collision) (l : list Collision) :
  Collision_in c l = false -> countC c l = 0%nat.
Proof.
  unfold Collision_in, countC. induction l as [|x l IH]; simpl; [reflexivity|].
  intros H. apply orb_false_iff in H. destruct H as [Hx Hl].
  rewrite Hx. apply IH. exact Hl.
Qed.

Lemma Collision_in_true_count (c : Collision) (l : list Collision) :
  Collision_in c l = true -> (1 <= countC c l)%nat.
Proof.
  unfold Collision_in, countC. induction l as [|x l IH]; simpl; [discriminate|].
  intros H. destruct (Collision_eq x c); simpl in *; [lia|]. apply IH. exact H.
Qed.

Lemma Collision_in_app (c : Collision) (l l' : list Collision) :
  Collision_in c (l ++ l') = Collision_in c l || Collision_in c l'.
Proof. unfold Collision_in. apply existsb_app. Qed.

Lemma scan_pair_pending_once (st : store) (i j : ref) (l : list Collision) :
  pending_once l -> pending_once (scan_pair st i j l).
Proof.
  intros H. unfold scan_pair.
  destruct (negb (i =? j)%nat); simpl; [|exact H].
  destruct (collides (deref st i) (deref st j)); simpl; [|exact H].
  destruct (Collision_in (mkCollision i j) l) eqn:E; simpl; [exact H|].
  intros c. rewrite countC_app. unfold countC at 2. simpl.
  destruct (Collision_eq (mkCollision i j) c) eqn:Ec; simpl.
  - rewrite (countC_congr c (mkCollision i j) l Ec).
    rewrite (Collision_in_false_count _ _ E). lia.
  - specialize (H c). lia.
Qed.

Lemma scan_pair_keeps (st : store) (i j : ref) (c : Collision) (l : list Collision) :
  Collision_in c l = true -> Collision_in c (scan_pair st i j l) = true.
Proof.
  intros H. unfold scan_pair.
  destruct (negb (i =? j)%nat && collides (deref st i) (deref st j)
            && negb (Collision_in (mkCollision i j) l)); [|exact H].
  rewrite Collision_in_app, H. reflexivity.
Qed.

Lemma scan_pair_adds (st : store) (i j : ref) (l : list Collision) :
  i <> j -> collides (deref st i) (deref st j) = true ->
  Collision_in (mkCollision i j) (scan_pair st i j l) = true.
Proof.
  intros Hij Hc. unfold scan_pair. apply Nat.eqb_neq in Hij. rewrite Hij, Hc. simpl.
  destruct (Collision_in (mkCollision i j) l) eqn:E; simpl; [exact E|].
  rewrite Collision_in_app. simpl. rewrite Collision_eq_refl.
  rewrite orb_true_r. reflexivity.
Qed.

Lemma fold_left_invariant {A B : Type} (P : A -> Prop) (f : A -> B -> A) :
  (forall a b, P a -> P (f a b)) ->
  forall l a, P a -> P (fold_left f l a).
Proof.
  intros Hf. induction l as [|b l IH]; intros a Ha; simpl; [exact Ha|].
  apply IH, Hf, Ha.
Qed.

Lemma fold_left_reaches {A B : Type} (Q : A -> Prop) (f : A -> B -> A) (b : B) :
  (forall a, Q (f a b)) -> (forall a b', Q a -> Q (f a b')) ->
  forall l a, In b l -> Q (fold_left f l a).
Proof.
  intros Hb Hf. induction l as [|x l IH]; intros a Hin; simpl; [contradiction|].
  destruct Hin as [->|Hin].
  - apply fold_left_invariant; [exact Hf|apply Hb].
  - apply IH, Hin.
Qed.

Lemma scan_leaf_pending_once (st : store) (pts : list ref) (l : list Collision) :
  pending_once l -> pending_once (scan_leaf st pts l).
Proof.
  unfold scan_leaf. apply fold_left_invariant. intros a i.
  apply fold_left_invariant. intros a' j. apply scan_pair_pending_once.
Qed.

Lemma scan_leaf_keeps (st : store) (pts : list ref) (c : Collision)
  (l : list Collision) :
  Collision_in c l = true -> Collision_in c (scan_leaf st pts l) = true.
Proof.
  unfold scan_leaf.
  apply (fold_left_invariant (fun a => Collision_in c a = true)). intros a i.
  apply (fold_left_invariant (fun a => Collision_in c a = true)). intros a' j.
  apply scan_pair_keeps.
Qed.

Lemma scan_leaf_finds (st : store) (pts : list ref) (i j : ref)
  (l : list Collision) :
  In i pts -> In j pts -> i <> j ->
  collides (deref st i) (deref st j) = true ->
  Collision_in (mkCollision i j) (scan_leaf st pts l) = true.
Proof.
  intros Hi Hj Hij Hc. unfold scan_leaf.
  apply (fold_left_reaches (fun a => Collision_in (mkCollision i j) a = true)
           _ i); [| |exact Hi].
  - intros a.
    apply (fold_left_reaches (fun a => Collision_in (mkCollision i j) a = true)
             _ j); [| |exact Hj].
    + intros a'. apply scan_pair_adds; assumption.
    + intros a' b'. apply scan_pair_keeps.
  - intros a b'.
    apply (fold_left_invariant (fun a => Collision_in (mkCollision i j) a = true)).
    intros a' j'. apply scan_pair_keeps.
Qed.

Lemma traverse_eq (st : store) (p sz : vec) (pts : list ref) (ch : list Node)
  (colls : list Collision) :
  traverse st (mkNode p sz pts ch) colls =
  match ch with
  | [] => scan_leaf st pts colls
  | _ :: _ => traverse_children st ch colls
  end.
Proof.
  destruct ch as [|c ch]; [reflexivity|].
  unfold traverse_children. simpl.
  generalize (traverse st c colls). clear c colls.
  induction ch as [|c ch IH]; intros acc; simpl; [reflexivity|]. apply IH.
Qed.

Lemma traverse_pending_once (st : store) (t : Node) :
  forall l, pending_once l -> pending_once (traverse st t l).
Proof.
  induction t as [p sz pts ch IH] using Node_induction. intros l Hl.
  rewrite traverse_eq. destruct ch as [|c ch].
  - apply scan_leaf_pending_once, Hl.
  - unfold traverse_children. revert l Hl.
    induction IH as [|x xs Hx _ IHxs]; intros l Hl; simpl; [exact Hl|].
    apply IHxs, Hx, Hl.
Qed.

Lemma traverse_keeps (st : store) (c : Collision) (t : Node) :
  forall l, Collision_in c l = true -> Collision_in c (traverse st t l) = true.
Proof.
  induction t as [p sz pts ch IH] using Node_induction. intros l Hl.
  rewrite traverse_eq. destruct ch as [|c0 ch].
  - apply scan_leaf_keeps, Hl.
  - unfold traverse_children. revert l Hl.
    induction IH as [|x xs Hx _ IHxs]; intros l Hl; simpl; [exact Hl|].
    apply IHxs, Hx, Hl.
Qed.

Lemma in_rect_square_Overlaps (p sz q : vec) (o : Object) :
  in_rect p sz q -> in_square o q -> Overlaps p sz (pos o) (size o).
Proof. unfold in_rect, in_square, Overlaps. lra. Qed.

(** A point of a rectangle lies in one of its four quadrants. *)
Lemma in_rect_quadrant (p sz q : vec) :
  in_rect p sz q ->
  in_rect p (half sz) q
  \/ in_rect (fst p + fst (half sz), snd p) (half sz) q
  \/ in_rect (fst p, snd p + snd (half sz)) (half sz) q
  \/ in_rect (fst p + fst (half sz), snd p + snd (half sz)) (half sz) q.
Proof.
  unfold in_rect, half; simpl. intros [Hx Hy].
  destruct (Rlt_dec (fst q) (fst p + fst sz / 2));
    destruct (Rlt_dec (snd q) (snd p + snd sz / 2)).
  - left. lra.
  - right; right; left. lra.
  - right; left. lra.
  - right; right; right. lra.
Qed.

(** Two colliding bodies whose squares share a point of the rectangle of
    a node are found in some leaf of the tree built from the node. *)
Lemma build_finds (st : store) (k : nat) (i j : ref) (q : vec) :
  i <> j -> collides (deref st i) (deref st j) = true ->
  in_square (deref st i) q -> in_square (deref st j) q ->
  forall fuel p sz pts t colls,
    recursive_subdivide fuel st (mkNode p sz pts []) k = Ok t ->
    in_rect p sz q -> In i pts -> In j pts ->
    Collision_in (mkCollision i j) (traverse st t colls) = true.
Proof.
  intros Hij Hc Hqi Hqj.
  induction fuel as [|fuel IH]; intros p sz pts t colls H Hq Hi Hj;
    [discriminate|].
  rewrite recursive_subdivide_S in H. cbn [points] in H.
  destruct (length pts <=? k)%nat.
  - inversion H; subst. rewrite traverse_eq. apply scan_leaf_finds; assumption.
  - apply bind_Ok in H; destruct H as [x1 [E1 H]].
    apply bind_Ok in H; destruct H as [x2 [E2 H]].
    apply bind_Ok in H; destruct H as [x3 [E3 H]].
    apply bind_Ok in H; destruct H as [x4 [E4 H]].
    inversion H; subst; clear H.
    rewrite traverse_eq. unfold traverse_children. cbn [fold_left].
    cbv beta iota zeta delta [child1 child2 child3 child4 node_pos node_size points]
      in E1, E2, E3, E4.
    destruct (in_rect_quadrant p sz q Hq) as [Q|[Q|[Q|Q]]].
    + do 3 apply traverse_keeps.
      apply (IH _ _ _ _ _ E1 Q); apply inside_In; split; try assumption;
        eapply in_rect_square_Overlaps; eassumption.
    + do 2 apply traverse_keeps.
      apply (IH _ _ _ _ _ E2 Q); apply inside_In; split; try assumption;
        eapply in_rect_square_Overlaps; eassumption.
    + apply traverse_keeps.
      apply (IH _ _ _ _ _ E3 Q); apply inside_In; split; try assumption;
        eapply in_rect_square_Overlaps; eassumption.
    + apply (IH _ _ _ _ _ E4 Q); apply inside_In; split; try assumption;
        eapply in_rect_square_Overlaps; eassumption.
Qed.

(** Two colliding well placed bodies have a point of the region in both
    their bounding squares. *)
Lemma sq_le_bound (x s : R) : 0 <= s -> x * x <= s * s -> - s <= x <= s.
Proof.
  intros Hs H. split.
  - destruct (Rle_dec (- s) x) as [|n]; [assumption|]. exfalso. nra.
  - destruct (Rle_dec x s) as [|n]; [assumption|]. exfalso. nra.
Qed.

Lemma Rmax3_spec (u v : R) :
  0 <= Rmax 0 (Rmax u v) /\ u <= Rmax 0 (Rmax u v) /\ v <= Rmax 0 (Rmax u v)
  /\ (Rmax 0 (Rmax u v) = 0 \/ Rmax 0 (Rmax u v) = u \/ Rmax 0 (Rmax u v) = v).
Proof.
  unfold Rmax. destruct (Rle_dec u v); destruct (Rle_dec 0 _); lra.
Qed.

Lemma colliding_squares_meet (d : vec) (a b : Object) :
  0 < fst d -> 0 < snd d -> well_placed d a -> well_placed d b ->
  collides a b = true ->
  exists q : vec, in_rect (0, 0) d q /\ in_square a q /\ in_square b q.
Proof.
  intros Hw Hh [Ha Oa] [Hb Ob] Hc.
  apply collides_true_iff in Hc. destruct Hc as [Hs Hc].
  unfold Overlaps in Oa, Ob; simpl in Oa, Ob.
  pose proof (Rle_0_sqr (fst (pos a) - fst (pos b))) as Sx.
  pose proof (Rle_0_sqr (snd (pos a) - snd (pos b))) as Sy.
  unfold Rsqr in Sx, Sy.
  assert (Hx : - (size a + size b) <= fst (pos a) - fst (pos b) <= size a + size b)
    by (apply sq_le_bound; lra).
  assert (Hy : - (size a + size b) <= snd (pos a) - snd (pos b) <= size a + size b)
    by (apply sq_le_bound; lra).
  exists (Rmax 0 (Rmax (fst (pos a) - size a) (fst (pos b) - size b)),
          Rmax 0 (Rmax (snd (pos a) - size a) (snd (pos b) - size b))).
  destruct (Rmax3_spec (fst (pos a) - size a) (fst (pos b) - size b))
    as (X0 & Xa & Xb & X).
  destruct (Rmax3_spec (snd (pos a) - size a) (snd (pos b) - size b))
    as (Y0 & Ya & Yb & Y).
  unfold in_rect, in_square; simpl.
  destruct X as [X|[X|X]]; destruct Y as [Y|[Y|Y]]; rewrite X, Y; lra.
Qed.

Lemma deref_in_range (st : store) (i : ref) :
  (i < length st)%nat -> In i (refs_of st).
Proof. intros H. unfold refs_of. apply in_seq. lia. Qed.

Lemma sparse_thin (st : store) (k : nat) (pts : list ref) (sz : vec) (D : nat) :
  NoDup pts -> sparse st k pts sz D -> thin st k pts sz D.
Proof.
  intros Hn Hs q. apply (Hs q).
  - unfold inside. apply NoDup_filter. exact Hn.
  - intros i Hi. apply inside_In in Hi. tauto.
  - apply Forall_forall. intros i Hi. apply inside_In in Hi. tauto.
Qed.

Lemma find_collisions_finds_pair (fuel : nat) (s s1 : Space) (i j : ref) :
  find_collisions fuel s = Ok s1 ->
  pending_once (collisions s) ->
  0 < fst (dim s) -> 0 < snd (dim s) ->
  well_placed (dim s) (deref (objects s) i) ->
  well_placed (dim s) (deref (objects s) j) ->
  (i < length (objects s))%nat -> (j < length (objects s))%nat -> i <> j ->
  collides (deref (objects s) i) (deref (objects s) j) = true ->
  countC (mkCollision i j) (collisions s1) = 1%nat.
Proof.
  intros H Hp Hw Hh Wi Wj Hi Hj Hij Hc.
  unfold find_collisions, root_of in H.
  apply bind_Ok in H; destruct H as [t [E H]]. inversion H; subst; clear H.
  simpl.
  destruct (colliding_squares_meet (dim s) _ _ Hw Hh Wi Wj Hc) as [q [Hq [Qi Qj]]].
  pose proof (build_finds (objects s) QUADTREE_K i j q Hij Hc Qi Qj
                fuel (0, 0) (dim s) (refs_of (objects s)) t (collisions s) E Hq
                (deref_in_range _ _ Hi) (deref_in_range _ _ Hj)) as Hin.
  apply Collision_in_true_count in Hin.
  pose proof (traverse_pending_once (objects s) t (collisions s) Hp
                (mkCollision i j)).
  lia.
Qed.

Lemma pair_count_countC (i j : ref) (l : list Collision) :
  pair_count i j l = countC (mkCollision i j) l.
Proof. reflexivity. Qed.

Lemma no_pair_twice_pending_once (l : list Collision) :
  no_pair_twice l <-> pending_once l.
Proof.
  split.
  - intros H [i j]. rewrite <- pair_count_countC. apply H.
  - intros H i j. rewrite pair_count_countC. apply H.
Qed.

Lemma pair_count_sym (i j : ref) (l : list Collision) :
  pair_count j i l = pair_count i j l.
Proof.
  unfold pair_count. f_equal. apply filter_ext. intros c. unfold same_pair.
  apply orb_comm.
Qed.

(** *** When the build returns *)

Lemma filter_length_impl {A : Type} (f g : A -> bool) (l : list A) :
  (forall x, f x = true -> g x = true) ->
  (length (filter f l) <= length (filter g l))%nat.
Proof.
  intros H. induction l as [|x l IH]; simpl; [lia|].
  destruct (f x) eqn:E.
  - rewrite (H x E). simpl. lia.
  - destruct (g x); simpl; lia.
Qed.

Lemma filter_filter_length {A : Type} (f g : A -> bool) (l : list A) :
  (length (filter g (filter f l)) <= length (filter g l))%nat.
Proof.
  induction l as [|x l IH]; simpl; [lia|].
  destruct (f x); simpl; destruct (g x); simpl; lia.
Qed.

Lemma inside_inside_length (st : store) (q e p sz : vec) (l : list ref) :
  (length (inside st q e (inside st p sz l)) <= length (inside st q e l))%nat.
Proof. unfold inside. apply filter_filter_length. Qed.

Lemma inside_half_length (st : store) (q sz : vec) (l : list ref) :
  0 <= fst sz -> 0 <= snd sz ->
  (length (inside st q (half sz) l) <= length (inside st q sz l))%nat.
Proof.
  intros Hw Hh. unfold inside. apply filter_length_impl. intros i.
  rewrite !overlaps_true_iff. unfold Overlaps, half; simpl. lra.
Qed.

Lemma scaled_0 (sz : vec) : scaled sz 0 = sz.
Proof. destruct sz as [w h]. unfold scaled; simpl. f_equal; field. Qed.

Lemma scaled_half (sz : vec) (D : nat) : scaled (half sz) D = scaled sz (S D).
Proof.
  unfold scaled, half; simpl.
  assert (H : 2 ^ D <> 0) by (apply pow_nonzero; lra).
  f_equal; field; assumption.
Qed.

Lemma thin_child (st : store) (k : nat) (pts : list ref) (sz p e : vec) (D : nat) :
  thin st k pts sz (S D) -> thin st k (inside st p e pts) (half sz) D.
Proof.
  intros H q. rewrite scaled_half.
  pose proof (inside_inside_length st q (scaled sz (S D)) p e pts).
  specialize (H q). lia.
Qed.

(** If, after [D] halvings, no rectangle meets more than [k] bodies, the
    build returns within [D + 2] nested calls. *)
Lemma build_returns (st : store) (k : nat) :
  forall (D : nat) (p sz : vec) (pts : list ref),
    0 <= fst sz -> 0 <= snd sz -> thin st k pts sz D ->
    exists t, recursive_subdivide (S (S D)) st (mkNode p sz pts []) k = Ok t.
Proof.
  induction D as [|D IH]; intros p sz pts Hw Hh Hs.
  - rewrite recursive_subdivide_S. cbn [points].
    destruct (length pts <=? k)%nat; [eexists; reflexivity|].
    unfold thin in Hs. rewrite scaled_0 in Hs.
    rewrite !recursive_subdivide_small.
    + eexists; reflexivity.
    + cbv beta iota zeta delta [child4 node_pos node_size points].
      pose proof (inside_half_length st
                    (fst p + fst (half sz), snd p + snd (half sz)) sz pts Hw Hh).
      specialize (Hs (fst p + fst (half sz), snd p + snd (half sz))). lia.
    + cbv beta iota zeta delta [child3 node_pos node_size points].
      pose proof (inside_half_length st
                    (fst p, snd p + snd (half sz)) sz pts Hw Hh).
      specialize (Hs (fst p, snd p + snd (half sz))). lia.
    + cbv beta iota zeta delta [child2 node_pos node_size points].
      pose proof (inside_half_length st
                    (fst p + fst (half sz), snd p) sz pts Hw Hh).
      specialize (Hs (fst p + fst (half sz), snd p)). lia.
    + cbv beta iota zeta delta [child1 node_pos node_size points].
      apply Hs.
  - rewrite recursive_subdivide_S. cbn [points].
    destruct (length pts <=? k)%nat; [eexists; reflexivity|].
    assert (Hw' : 0 <= fst (half sz)) by (unfold half; simpl; lra).
    assert (Hh' : 0 <= snd (half sz)) by (unfold half; simpl; lra).
    cbv beta iota zeta delta [child1 child2 child3 child4 node_pos node_size points].
    destruct (IH p (half sz) (inside st p sz pts) Hw' Hh'
                (thin_child st k pts sz p sz D Hs)) as [x1 E1].
    destruct (IH (fst p + fst (half sz), snd p) (half sz)
                (inside st (fst p + fst (half sz), snd p) (half sz) pts) Hw' Hh'
                (thin_child st k pts sz _ _ D Hs)) as [x2 E2].
    destruct (IH (fst p, snd p + snd (half sz)) (half sz)
                (inside st (fst p, snd p + snd (half sz)) (half sz) pts) Hw' Hh'
                (thin_child st k pts sz _ _ D Hs)) as [x3 E3].
    destruct (IH (fst p + fst (half sz), snd p + snd (half sz)) (half sz)
                (inside st (fst p + fst (half sz), snd p + snd (half sz))
                   (half sz) pts) Hw' Hh'
                (thin_child st k pts sz _ _ D Hs)) as [x4 E4].
    rewrite E1, E2, E3, E4. eexists; reflexivity.
Qed.

(** That no pair is pending twice holds of the empty list of a new space
    and is kept by a tick. *)
Lemma list_remove_count (c x : Collision) (l : list Collision) :
  (countC x (list_remove c l) <= countC x l)%nat.
Proof.
  unfold countC. induction l as [|y l IH]; simpl; [lia|].
  destruct (Collision_eq y c); simpl.
  - destruct (Collision_eq y x); simpl; lia.
  - destruct (Collision_eq y x); simpl; lia.
Qed.

Lemma resolve_from_pending_once (n : nat) :
  forall i s s', resolve_from n i s = Ok s' ->
                 pending_once (collisions s) -> pending_once (collisions s').
Proof.
  induction n as [|n IH]; intros i s s' H Hp; simpl in H.
  - destruct (nth_error (collisions s) i); inversion H; subst; exact Hp.
  - destruct (nth_error (collisions s) i) as [c|]; [|inversion H; subst; exact Hp].
    apply bind_Ok in H; destruct H as [st [_ H]].
    apply IH in H; [exact H|]. simpl. intros x.
    pose proof (list_remove_count c x (collisions s)). specialize (Hp x). lia.
Qed.

Lemma update_pending_once (fuel : nat) (s s' : Space) :
  update fuel s = Ok s' ->
  pending_once (collisions s) -> pending_once (collisions s').
Proof.
  unfold update, handle_collisions, find_collisions. intros H Hp.
  apply bind_Ok in H; destruct H as [s1 [E H]].
  apply bind_Ok in E; destruct E as [t [_ E]]. inversion E; subst; clear E.
  apply resolve_from_pending_once in H; [exact H|]. simpl.
  apply traverse_pending_once. exact Hp.
Qed.

(** *** A colliding pair that straddles the dividing lines *)

(** The tree of [straddling]: the pair (0,1) is in three leaves, the
    first and second child of [straddling_x1] and the second child of the
    root. *)
Lemma straddling_build :
  recursive_subdivide 3 (objects straddling) (root_of straddling) QUADTREE_K =
    Ok (mkNode (0, 0) (800, 800) []
          [mkNode (node_pos straddling_x1) (node_size straddling_x1) []
             [child1 (objects straddling) straddling_x1;
              child2 (objects straddling) straddling_x1;
              child3 (objects straddling) straddling_x1;
              child4 (objects straddling) straddling_x1];
           child2 (objects straddling) (root_of straddling);
           child3 (objects straddling) (root_of straddling);
           child4 (objects straddling) (root_of straddling)])
  /\ points (child1 (objects straddling) straddling_x1) = [0; 1]%nat
  /\ points (child2 (objects straddling) straddling_x1) = [0; 1]%nat
  /\ points (child2 (objects straddling) (root_of straddling)) = [0; 1]%nat.
Proof.
  assert (P1 : points straddling_x1 = [0; 1; 2; 3; 4; 5]%nat).
  { unfold straddling_x1, root_of, straddling. cbn [objects dim].
    inside_eval. reflexivity. }
  assert (P2 : points (child2 (objects straddling) (root_of straddling))
               = [0; 1]%nat).
  { unfold root_of, straddling. cbn [objects dim]. inside_eval. reflexivity. }
  assert (P3 : points (child3 (objects straddling) (root_of straddling))
               = [2; 3]%nat).
  { unfold root_of, straddling. cbn [objects dim]. inside_eval. reflexivity. }
  assert (P4 : points (child4 (objects straddling) (root_of straddling))
               = [4; 5]%nat).
  { unfold root_of, straddling. cbn [objects dim]. inside_eval. reflexivity. }
  assert (Q1 : points (child1 (objects straddling) straddling_x1) = [0; 1]%nat).
  { unfold child1 at 1. unfold points at 1. rewrite P1.
    unfold straddling_x1, root_of, straddling. cbn [objects dim].
    inside_eval. reflexivity. }
  assert (Q2 : points (child2 (objects straddling) straddling_x1) = [0; 1]%nat).
  { unfold child2 at 1. unfold points at 1. rewrite P1.
    unfold straddling_x1, root_of, straddling. cbn [objects dim].
    inside_eval. reflexivity. }
  assert (Q3 : points (child3 (objects straddling) straddling_x1) = []).
  { unfold child3 at 1. unfold points at 1. rewrite P1.
    unfold straddling_x1, root_of, straddling. cbn [objects dim].
    inside_eval. reflexivity. }
  assert (Q4 : points (child4 (objects straddling) straddling_x1) = []).
  { unfold child4 at 1. unfold points at 1. rewrite P1.
    unfold straddling_x1, root_of, straddling. cbn [objects dim].
    inside_eval. reflexivity. }
  split; [|split; [exact Q1|split; [exact Q2|exact P2]]].
  rewrite recursive_subdivide_S.
  replace (length (points (root_of straddling)) <=? QUADTREE_K)%nat with false
    by reflexivity.
  fold straddling_x1.
  rewrite (recursive_subdivide_S 1 (objects straddling) straddling_x1).
  rewrite P1.
  replace (length [0; 1; 2; 3; 4; 5]%nat <=? QUADTREE_K)%nat with false
    by reflexivity.
  rewrite !recursive_subdivide_small
    by (rewrite ?Q1, ?Q2, ?Q3, ?Q4, ?P2, ?P3, ?P4; unfold QUADTREE_K; simpl; lia).
  reflexivity.
Qed.

Lemma straddling_sparse :
  sparse (objects straddling) QUADTREE_K (refs_of (objects straddling))
    (dim straddling) 2.
Proof.
  intros q sub Hn Hincl Ho. unfold QUADTREE_K.
  destruct (le_lt_dec (length sub) 5) as [H|H]; [exact H|]. exfalso.
  assert (Hall : incl (refs_of (objects straddling)) sub).
  { apply NoDup_length_incl; [exact Hn| |exact Hincl]. simpl. lia. }
  rewrite Forall_forall in Ho.
  assert (H2 : In 2%nat sub) by (apply Hall; simpl; auto 10).
  assert (H5 : In 5%nat sub) by (apply Hall; simpl; auto 10).
  apply Ho in H2. apply Ho in H5.
  unfold Overlaps, scaled in H2, H5. simpl in H2, H5. lra.
Qed.

(** C9 (as amended): for two distinct bodies that collide at detection
    time, [find_collisions] returns and leaves exactly one pending
    collision that holds the two bodies, in whichever order the pair is
    written and in however many leaves the two bodies meet, and a pair
    equals its transpose -- when the region has positive extent, the two
    bodies have non-negative radius and bounding squares that meet the
    region, no pair is pending twice before detection, and the bodies are
    sparse enough for the subdivision to end: after some number [D] of
    halvings no rectangle of extent [dim / 2^D] meets the bounding squares
    of more than 5 bodies. *)
Theorem find_collisions_reports_each_pair_once
  (D : nat) (s : Space) (i j : ref) :
  no_pair_twice (collisions s) ->
  0 < fst (dim s) -> 0 < snd (dim s) ->
  sparse (objects s) QUADTREE_K (refs_of (objects s)) (dim s) D ->
  (i < length (objects s))%nat -> (j < length (objects s))%nat -> i <> j ->
  well_placed (dim s) (deref (objects s) i) ->
  well_placed (dim s) (deref (objects s) j) ->
  collides (deref (objects s) i) (deref (objects s) j) = true ->
  exists s1 : Space,
    find_collisions (S (S D)) s = Ok s1
    /\ pair_count i j (collisions s1) = 1%nat
    /\ pair_count j i (collisions s1) = 1%nat
    /\ Collision_eq (mkCollision i j) (mkCollision j i) = true.
Proof.
  intros Hp Hw Hh Hs Hi Hj Hij Wi Wj Hc.
  destruct (build_returns (objects s) QUADTREE_K D (0, 0) (dim s)
              (refs_of (objects s))) as [t E]; try lra.
  { apply sparse_thin; [apply seq_NoDup|exact Hs]. }
  assert (F : find_collisions (S (S D)) s =
              Ok {| objects := objects s; dim := dim s;
                    collisions := traverse (objects s) t (collisions s) |}).
  { unfold find_collisions, root_of. cbv zeta. rewrite E. reflexivity. }
  assert (C : pair_count i j (traverse (objects s) t (collisions s)) = 1%nat).
  { rewrite pair_count_countC.
    apply (find_collisions_finds_pair (S (S D)) s _ i j F); try assumption.
    apply no_pair_twice_pending_once. exact Hp. }
  eexists. split; [exact F|]. cbn [collisions].
  split; [exact C|]. split; [|apply Collision_eq_transpose].
  rewrite pair_count_sym. exact C.
Qed.

Lemma find_collisions_reports_each_pair_once_witness :
  exists s1 : Space,
    find_collisions 4 straddling = Ok s1
    /\ pair_count 0%nat 1%nat (collisions s1) = 1%nat
    /\ pair_count 1%nat 0%nat (collisions s1) = 1%nat
    /\ Collision_eq (mkCollision 0%nat 1%nat) (mkCollision 1%nat 0%nat) = true.
Proof.
  apply (find_collisions_reports_each_pair_once 2 straddling 0%nat 1%nat).
  - intros i j. unfold pair_count, straddling. simpl. lia.
  - simpl. lra.
  - simpl. lra.
  - exact straddling_sparse.
  - simpl. lia.
  - simpl. lia.
  - discriminate.
  - unfold well_placed, Overlaps. simpl. lra.
  - unfold well_placed, Overlaps. simpl. lra.
  - apply collides_true_iff. simpl. lra.
Defined.

(** *** A colliding pair outside the region *)

Lemma outside_pair_find :
  find_collisions 2 outside_pair =
  Ok {| objects := objects outside_pair; dim := dim outside_pair;
        collisions := [] |}.
Proof.
  assert (P1 : child1 (objects outside_pair) (root_of outside_pair)
               = mkNode (0, 0) (half (800, 800)) [2; 3; 4; 5]%nat []).
  { unfold root_of, outside_pair. cbn [objects dim]. inside_eval. reflexivity. }
  assert (P2 : points (child2 (objects outside_pair) (root_of outside_pair)) = []).
  { unfold root_of, outside_pair. cbn [objects dim]. inside_eval. reflexivity. }
  assert (P3 : points (child3 (objects outside_pair) (root_of outside_pair))
               = [2; 3]%nat).
  { unfold root_of, outside_pair. cbn [objects dim]. inside_eval. reflexivity. }
  assert (P4 : points (child4 (objects outside_pair) (root_of outside_pair))
               = [4; 5]%nat).
  { unfold root_of, outside_pair. cbn [objects dim]. inside_eval. reflexivity. }
  unfold find_collisions. cbv zeta.
  rewrite recursive_subdivide_S.
  replace (length (points (root_of outside_pair)) <=? QUADTREE_K)%nat with false
    by reflexivity.
  rewrite !recursive_subdivide_small
    by (rewrite ?P1, ?P2, ?P3, ?P4; unfold QUADTREE_K; simpl; lia).
  cbn [bind]. f_equal. f_equal.
  rewrite traverse_eq. unfold traverse_children. cbn [fold_left].
  destruct (child2 (objects outside_pair) (root_of outside_pair))
    as [p2 s2 pts2 ch2] eqn:C2.
  destruct (child3 (objects outside_pair) (root_of outside_pair))
    as [p3 s3 pts3 ch3] eqn:C3.
  destruct (child4 (objects outside_pair) (root_of outside_pair))
    as [p4 s4 pts4 ch4] eqn:C4.
  assert (ch2 = []) by (unfold child2 in C2; inversion C2; reflexivity).
  assert (ch3 = []) by (unfold child3 in C3; inversion C3; reflexivity).
  assert (ch4 = []) by (unfold child4 in C4; inversion C4; reflexivity).
  cbn [points] in P2, P3, P4. subst.
  rewrite P1. rewrite !traverse_eq.
  unfold outside_pair. cbn [objects collisions].
  unfold scan_leaf. cbn [fold_left]. scan_eval. reflexivity.
Qed.

Lemma corner_space_find (fuel : nat) :
  find_collisions fuel corner_space = RecursionError.
Proof.
  unfold find_collisions, root_of. cbv zeta.
  rewrite (cluster_diverges (objects corner_space) QUADTREE_K (10, 10) 10
             (refs_of (objects corner_space))).
  - reflexivity.
  - lra.
  - exact corner_cluster_is_cluster.
  - unfold QUADTREE_K; simpl; lia.
  - unfold Overlaps; simpl; lra.
Qed.

(** In [outside_pair] detection returns and the colliding pair (0,1),
    which lies outside the region, is not reported; in [corner_space]
    bodies 0 and 1 collide and detection returns at no recursion depth. *)
Lemma detection_misses_pair_or_never_returns :
  (exists s1 : Space,
      find_collisions 2 outside_pair = Ok s1
      /\ collides (deref (objects outside_pair) 0%nat)
           (deref (objects outside_pair) 1%nat)
         = true
      /\ pair_count 0%nat 1%nat (collisions s1) = 0%nat)
  /\ (collides (deref (objects corner_space) 0%nat)
        (deref (objects corner_space) 1%nat)
      = true
      /\ ~ exists (fuel : nat) (s1 : Space),
             find_collisions fuel corner_space = Ok s1).
Proof.
  split.
  - eexists. split; [exact outside_pair_find|]. split; [|reflexivity].
    apply collides_true_iff. simpl. lra.
  - split.
    + apply collides_true_iff. simpl. lra.
    + intros [fuel [s1 H]]. rewrite corner_space_find in H. discriminate.
Qed.

(** * Further properties of the code *)

(** ** Further properties of collisions and bodies *)

(** X1: [Collision.__eq__] is an equivalence: a collision equals itself,
    equality does not depend on the side the collision stands on, and it is
    transitive. *)
Theorem Collision_eq_equivalence (a b c : Collision) :
  Collision_eq a a = true
  /\ Collision_eq a b = Collision_eq b a
  /\ (Collision_eq a b = true -> Collision_eq b c = true ->
      Collision_eq a c = true).
Proof.
  split; [apply Collision_eq_refl|]. split.
  - apply eq_true_iff_eq. rewrite !Collision_eq_iff.
    split; intros [[H1 H2]|[H1 H2]]; auto.
  - rewrite !Collision_eq_iff.
    intros [[H1 H2]|[H1 H2]] [[H3 H4]|[H3 H4]]; rewrite H1, H2, H3, H4; auto.
Qed.

Lemma dist_sym (a b : Object) : dist a b = dist b a.
Proof.
  unfold dist, norm, vsub; simpl. f_equal. ring.
Qed.

(** X2: [dist] and [collides] are symmetric in the two bodies. *)
Theorem collides_symmetric (a b : Object) :
  dist a b = dist b a /\ collides a b = collides b a.
Proof.
  split; [apply dist_sym|].
  unfold collides. rewrite (dist_sym a b), (Rplus_comm (size a)). reflexivity.
Qed.

(** X3: two bodies collide exactly when their radii sum to a non-negative
    number and the squared distance of the centres is at most the square
    of that sum. *)
Theorem collides_without_root (a b : Object) :
  collides a b = true <->
  0 <= size a + size b /\
  (fst (pos a) - fst (pos b)) * (fst (pos a) - fst (pos b))
  + (snd (pos a) - snd (pos b)) * (snd (pos a) - snd (pos b))
  <= (size a + size b) * (size a + size b).
Proof. apply collides_true_iff. Qed.

(** ** Rotation *)

Lemma cos2_sin2 (t : R) : cos t * cos t + sin t * sin t = 1.
Proof. pose proof (sin2_cos2 t) as H. unfold Rsqr in H. lra. Qed.

(** X4: the transpose of the rotation matrix undoes the rotation, and the
    rotation keeps the norm of a vector. *)
Theorem transpose_inverts_rotation (a b : Object) (v : vec) :
  matmul (transpose (rotation a b)) (matmul (rotation a b) v) = v
  /\ norm (matmul (rotation a b) v) = norm v.
Proof.
  unfold rotation.
  set (t := arctan2 (- snd (vsub (pos b) (pos a))) (fst (vsub (pos b) (pos a)))).
  pose proof (cos2_sin2 t) as H.
  destruct v as [x y]. unfold matmul, transpose, norm; simpl. split.
  - f_equal.
    + replace (cos t * (cos t * x + - sin t * y) + sin t * (sin t * x + cos t * y))
        with ((cos t * cos t + sin t * sin t) * x) by ring.
      rewrite H. ring.
    + replace (- sin t * (cos t * x + - sin t * y) + cos t * (sin t * x + cos t * y))
        with ((cos t * cos t + sin t * sin t) * y) by ring.
      rewrite H. ring.
  - f_equal.
    replace ((cos t * x + - sin t * y) * (cos t * x + - sin t * y)
             + (sin t * x + cos t * y) * (sin t * x + cos t * y))
      with ((cos t * cos t + sin t * sin t) * (x * x + y * y)) by ring.
    rewrite H. ring.
Qed.

(** ** Exchange: kinetic energy *)

(** X5: the exchange keeps [m1 * v1.x^2 + m2 * v2.x^2] and reverses the
    relative velocity along the axis. *)
Theorem exchange_conserves_energy (m1 m2 : R) (v1 v2 : vec) :
  m1 + m2 <> 0 ->
  exists w1 w2 : vec,
    exchange m1 m2 v1 v2 = Ok (w1, w2)
    /\ m1 * (fst w1 * fst w1) + m2 * (fst w2 * fst w2)
       = m1 * (fst v1 * fst v1) + m2 * (fst v2 * fst v2)
    /\ fst w1 - fst w2 = - (fst v1 - fst v2).
Proof.
  intros H. eexists; eexists. split; [apply exchange_Ok; assumption|].
  simpl. split; field; assumption.
Qed.

Lemma exchange_conserves_energy_witness :
  exists w1 w2 : vec,
    exchange 10 20 (5, 0) (-5, 0) = Ok (w1, w2)
    /\ 10 * (fst w1 * fst w1) + 20 * (fst w2 * fst w2)
       = 10 * (fst (5, 0) * fst (5, 0)) + 20 * (fst (-5, 0) * fst (-5, 0))
    /\ fst w1 - fst w2 = - (fst (5, 0) - fst (-5, 0)).
Proof. apply (exchange_conserves_energy 10 20 (5, 0) (-5, 0)). lra. Defined.

(** ** Resolution of one pair: what it conserves *)

Lemma exchange_inv (m1 m2 : R) (v1 v2 w1 w2 : vec) :
  exchange m1 m2 v1 v2 = Ok (w1, w2) ->
  m1 + m2 <> 0
  /\ w1 = (((m1 - m2) * fst v1 + 2 * m2 * fst v2) / (m1 + m2), snd v1)
  /\ w2 = (((m2 - m1) * fst v2 + 2 * m1 * fst v1) / (m1 + m2), snd v2).
Proof.
  unfold exchange, sdiv. destruct (Req_dec_T (m1 + m2) 0); simpl; [discriminate|].
  intros H; inversion H; subst. auto.
Qed.

Lemma separate_inv (a b : Object) (ps : vec * vec) :
  separate a b = Ok ps ->
  norm (vsub (pos b) (pos a)) <> 0
  /\ ps = (vsub (pos a)
             (vscale ((size a + size b - dist b a) / 2)
                (fst (vsub (pos b) (pos a)) / norm (vsub (pos b) (pos a)),
                 snd (vsub (pos b) (pos a)) / norm (vsub (pos b) (pos a)))),
           vadd (pos b)
             (vscale ((size a + size b - dist b a) / 2)
                (fst (vsub (pos b) (pos a)) / norm (vsub (pos b) (pos a)),
                 snd (vsub (pos b) (pos a)) / norm (vsub (pos b) (pos a))))).
Proof.
  unfold separate, vdiv.
  destruct (Req_dec_T (norm (vsub (pos b) (pos a))) 0); simpl; [discriminate|].
  intros H; inversion H; subst. auto.
Qed.

Lemma resolve_pair_inv (a b a' b' : Object) :
  resolve_pair a b = Ok (a', b') ->
  exists (ps vs : vec * vec),
    separate a b = Ok ps
    /\ exchange (mass a) (mass b) (matmul (rotation a b) (vel a))
         (matmul (rotation a b) (vel b)) = Ok vs
    /\ a' = set_vel (set_pos a (fst ps)) (matmul (transpose (rotation a b)) (fst vs))
    /\ b' = set_vel (set_pos b (snd ps)) (matmul (transpose (rotation a b)) (snd vs)).
Proof.
  unfold resolve_pair. intros H.
  apply bind_Ok in H; destruct H as [ps [E1 H]].
  apply bind_Ok in H; destruct H as [vs [E2 H]].
  inversion H; subst. exists ps, vs. auto.
Qed.

(** X6: when resolution yields numbers and the radii sum to a
    non-negative number, the two bodies end at distance exactly the sum of
    their radii, and the midpoint of their centres does not move. *)
Theorem resolve_pair_puts_in_contact (a b a' b' : Object) :
  resolve_pair a b = Ok (a', b') -> 0 <= size a + size b ->
  dist a' b' = size a + size b
  /\ vadd (pos a') (pos b') = vadd (pos a) (pos b).
Proof.
  intros H Hr. apply resolve_pair_inv in H.
  destruct H as (ps & vs & E1 & _ & -> & ->).
  apply separate_inv in E1. destruct E1 as [Hn ->].
  unfold dist at 1. simpl.
  rewrite (dist_sym b a). unfold dist.
  pose proof (norm_sqr (vsub (pos b) (pos a))) as Hs.
  pose proof (norm_nonneg (vsub (pos b) (pos a))) as Hp.
  assert (Hab : norm (vsub (pos a) (pos b)) = norm (vsub (pos b) (pos a)))
    by apply dist_sym.
  rewrite Hab.
  set (n := norm (vsub (pos b) (pos a))) in *.
  destruct (pos a) as [ax ay], (pos b) as [bx by']. unfold vsub, vadd, vscale in *.
  simpl in *. split.
  - apply norm_sq; [assumption|].
    assert (K : forall dx dy : R, n * n = dx * dx + dy * dy ->
                (size a + size b) * (size a + size b) =
                (- (dx + 2 * ((size a + size b - n) / 2 * (dx / n))))
                * (- (dx + 2 * ((size a + size b - n) / 2 * (dx / n))))
                + (- (dy + 2 * ((size a + size b - n) / 2 * (dy / n))))
                  * (- (dy + 2 * ((size a + size b - n) / 2 * (dy / n))))).
    { intros dx dy E.
      replace (dx + 2 * ((size a + size b - n) / 2 * (dx / n)))
        with ((size a + size b) * (dx / n)) by (field; assumption).
      replace (dy + 2 * ((size a + size b - n) / 2 * (dy / n)))
        with ((size a + size b) * (dy / n)) by (field; assumption).
      replace (- ((size a + size b) * (dx / n)) * - ((size a + size b) * (dx / n))
               + - ((size a + size b) * (dy / n)) * - ((size a + size b) * (dy / n)))
        with ((size a + size b) * (size a + size b) * ((dx * dx + dy * dy) / (n * n)))
        by (field; assumption).
      rewrite <- E. field. assumption. }
    rewrite (K (bx - ax) (by' - ay) Hs). ring.
  - f_equal; ring.
Qed.

Lemma resolve_pair_puts_in_contact_witness :
  dist scenario_a' scenario_b' = size scenario_a + size scenario_b
  /\ vadd (pos scenario_a') (pos scenario_b')
     = vadd (pos scenario_a) (pos scenario_b).
Proof.
  apply (resolve_pair_puts_in_contact scenario_a scenario_b
           scenario_a' scenario_b' scenario_eval).
  simpl. lra.
Defined.

(** X7: when resolution yields numbers, the total momentum
    [m_a * v_a + m_b * v_b] (both components) and the total kinetic energy
    [m_a * |v_a|^2 + m_b * |v_b|^2] of the pair are what they were, and
    so are the two masses. *)
Theorem resolve_pair_conserves_momentum_and_energy (a b a' b' : Object) :
  resolve_pair a b = Ok (a', b') ->
  vadd (vscale (mass a') (vel a')) (vscale (mass b') (vel b'))
  = vadd (vscale (mass a) (vel a)) (vscale (mass b) (vel b))
  /\ mass a' * sqnorm (vel a') + mass b' * sqnorm (vel b')
     = mass a * sqnorm (vel a) + mass b * sqnorm (vel b)
  /\ mass a' = mass a /\ mass b' = mass b.
Proof.
  intros H.
  assert (Hmass : mass a' = mass a /\ mass b' = mass b).
  { destruct (resolve_pair_frame a b a' b' H) as [Fa Fb].
    unfold frame in Fa, Fb. split; congruence. }
  refine ((fun P => conj (proj1 P) (conj (proj2 P) Hmass)) _).
  apply resolve_pair_inv in H.
  destruct H as (ps & [w1 w2] & _ & E2 & -> & ->).
  apply exchange_inv in E2. destruct E2 as (Hm & -> & ->).
  unfold rotation.
  set (t := arctan2 (- snd (vsub (pos b) (pos a))) (fst (vsub (pos b) (pos a)))).
  pose proof (cos2_sin2 t) as Ht.
  set (c := cos t) in *. set (s := sin t) in *.
  destruct (vel a) as [x1 y1], (vel b) as [x2 y2].
  set (m1 := mass a) in *. set (m2 := mass b) in *.
  unfold sqnorm, vadd, vscale, matmul, transpose. simpl.
  fold m1 m2.
  set (p1 := c * x1 + - s * y1). set (q1 := s * x1 + c * y1).
  set (p2 := c * x2 + - s * y2). set (q2 := s * x2 + c * y2).
  set (u1 := ((m1 - m2) * p1 + 2 * m2 * p2) / (m1 + m2)).
  set (u2 := ((m2 - m1) * p2 + 2 * m1 * p1) / (m1 + m2)).
  assert (M : m1 * u1 + m2 * u2 = m1 * p1 + m2 * p2)
    by (unfold u1, u2; field; assumption).
  assert (E : m1 * (u1 * u1) + m2 * (u2 * u2) = m1 * (p1 * p1) + m2 * (p2 * p2))
    by (unfold u1, u2; field; assumption).
  split.
  - f_equal.
    + replace (m1 * (c * u1 + s * q1) + m2 * (c * u2 + s * q2))
        with (c * (m1 * u1 + m2 * u2) + s * (m1 * q1 + m2 * q2)) by ring.
      rewrite M. unfold p1, p2, q1, q2.
      replace (c * (m1 * (c * x1 + - s * y1) + m2 * (c * x2 + - s * y2))
               + s * (m1 * (s * x1 + c * y1) + m2 * (s * x2 + c * y2)))
        with ((c * c + s * s) * (m1 * x1 + m2 * x2)) by ring.
      rewrite Ht. ring.
    + replace (m1 * (- s * u1 + c * q1) + m2 * (- s * u2 + c * q2))
        with (- s * (m1 * u1 + m2 * u2) + c * (m1 * q1 + m2 * q2)) by ring.
      rewrite M. unfold p1, p2, q1, q2.
      replace (- s * (m1 * (c * x1 + - s * y1) + m2 * (c * x2 + - s * y2))
               + c * (m1 * (s * x1 + c * y1) + m2 * (s * x2 + c * y2)))
        with ((c * c + s * s) * (m1 * y1 + m2 * y2)) by ring.
      rewrite Ht. ring.
  - replace (m1 * ((c * u1 + s * q1) * (c * u1 + s * q1)
                   + (- s * u1 + c * q1) * (- s * u1 + c * q1))
             + m2 * ((c * u2 + s * q2) * (c * u2 + s * q2)
                     + (- s * u2 + c * q2) * (- s * u2 + c * q2)))
      with ((c * c + s * s) * ((m1 * (u1 * u1) + m2 * (u2 * u2))
                               + (m1 * (q1 * q1) + m2 * (q2 * q2)))) by ring.
    rewrite E, Ht. unfold p1, p2, q1, q2.
    replace (1 * (m1 * ((c * x1 + - s * y1) * (c * x1 + - s * y1))
                  + m2 * ((c * x2 + - s * y2) * (c * x2 + - s * y2))
                  + (m1 * ((s * x1 + c * y1) * (s * x1 + c * y1))
                     + m2 * ((s * x2 + c * y2) * (s * x2 + c * y2)))))
      with ((c * c + s * s) * (m1 * (x1 * x1 + y1 * y1) + m2 * (x2 * x2 + y2 * y2)))
      by ring.
    rewrite Ht. ring.
Qed.

Lemma resolve_pair_conserves_momentum_and_energy_witness :
  vadd (vscale (mass scenario_a') (vel scenario_a'))
       (vscale (mass scenario_b') (vel scenario_b'))
  = vadd (vscale (mass scenario_a) (vel scenario_a))
         (vscale (mass scenario_b) (vel scenario_b))
  /\ mass scenario_a' * sqnorm (vel scenario_a')
     + mass scenario_b' * sqnorm (vel scenario_b')
     = mass scenario_a * sqnorm (vel scenario_a)
       + mass scenario_b * sqnorm (vel scenario_b)
  /\ mass scenario_a' = mass scenario_a /\ mass scenario_b' = mass scenario_b.
Proof.
  apply (resolve_pair_conserves_momentum_and_energy scenario_a scenario_b
           scenario_a' scenario_b' scenario_eval).
Defined.

(** ** The angle of the rotation *)

Lemma sqrt_one_plus_sqr (x y : R) :
  x <> 0 ->
  sqrt (1 + (y / x)²) = sqrt (x * x + y * y) / Rabs x.
Proof.
  intros Hx.
  assert (Ha : 0 < Rabs x) by (apply Rabs_pos_lt; assumption).
  assert (Hs : 0 <= x * x + y * y) by nra.
  pose proof (sqrt_pos (x * x + y * y)) as Hp.
  pose proof (sqrt_sqrt _ Hs) as Hq.
  assert (Hxx : Rabs x * Rabs x = x * x).
  { unfold Rabs. destruct (Rcase_abs x); ring. }
  apply sqrt_lem_1.
  - unfold Rsqr. pose proof (Rle_0_sqr (y / x)) as H. unfold Rsqr in H. lra.
  - apply Rmult_le_pos; [assumption|]. left. apply Rinv_0_lt_compat. assumption.
  - unfold Rsqr.
    replace (sqrt (x * x + y * y) / Rabs x * (sqrt (x * x + y * y) / Rabs x))
      with ((sqrt (x * x + y * y) * sqrt (x * x + y * y)) / (Rabs x * Rabs x))
      by (field; lra).
    rewrite Hq, Hxx. field. assumption.
Qed.

Lemma atan_cos_sin (x y : R) :
  x <> 0 ->
  cos (atan (y / x)) = Rabs x / sqrt (x * x + y * y)
  /\ sin (atan (y / x)) = (y / x) * Rabs x / sqrt (x * x + y * y).
Proof.
  intros Hx.
  assert (Ha : 0 < Rabs x) by (apply Rabs_pos_lt; assumption).
  assert (Hn : sqrt (x * x + y * y) <> 0).
  { intros E. apply sqrt_eq_0 in E; nra. }
  rewrite cos_atan, sin_atan, sqrt_one_plus_sqr by assumption.
  split; field; repeat split; lra.
Qed.

Lemma arctan2_cos_sin (y x : R) :
  (x <> 0 \/ y <> 0) ->
  cos (arctan2 y x) = x / sqrt (x * x + y * y)
  /\ sin (arctan2 y x) = y / sqrt (x * x + y * y).
Proof.
  intros Hxy.
  assert (Hn : sqrt (x * x + y * y) <> 0).
  { intros E. apply sqrt_eq_0 in E; nra. }
  unfold arctan2.
  destruct (Rlt_dec 0 x) as [Hx|Hx].
  - destruct (atan_cos_sin x y) as [C S]; [lra|]. rewrite C, S.
    rewrite Rabs_pos_eq by lra. split; field; repeat split; lra.
  - destruct (Rlt_dec x 0) as [Hx'|Hx'].
    + destruct (atan_cos_sin x y) as [C S]; [lra|].
      rewrite Rabs_left in C, S by assumption.
      destruct (Rle_dec 0 y).
      * rewrite neg_cos, neg_sin, C, S. split; field; repeat split; lra.
      * rewrite cos_minus, sin_minus, cos_PI, sin_PI, C, S.
        split; field; repeat split; lra.
    + assert (x = 0) by lra. subst x.
      replace (0 * 0 + y * y) with (y * y) in * by ring.
      destruct (Rlt_dec 0 y) as [Hy|Hy].
      * rewrite cos_PI2, sin_PI2, sqrt_square by lra. split; field; lra.
      * destruct (Rlt_dec y 0) as [Hy'|Hy']; [|exfalso; lra].
        replace (- PI / 2) with (- (PI / 2)) by field.
        rewrite cos_neg, sin_neg, cos_PI2, sin_PI2.
        replace (y * y) with ((- y) * (- y)) by ring.
        rewrite sqrt_square by lra. split; field; lra.
Qed.

(** X8: the rotation takes the vector from the first centre to the second
    onto the positive x-axis: its image is (distance, 0). *)
Theorem rotation_aligns_centres (a b : Object) :
  pos a <> pos b ->
  matmul (rotation a b) (vsub (pos b) (pos a)) = (dist b a, 0).
Proof.
  intros Hab. unfold rotation, dist.
  pose proof (norm_sqr (vsub (pos b) (pos a))) as Hs.
  assert (Hn : norm (vsub (pos b) (pos a)) <> 0).
  { intros E. apply Hab. apply vsub_zero_iff, norm_zero_iff. exact E. }
  destruct (arctan2_cos_sin (- snd (vsub (pos b) (pos a)))
              (fst (vsub (pos b) (pos a)))) as [C S].
  { destruct (Req_dec_T (fst (vsub (pos b) (pos a))) 0) as [E1|E1]; [|left; exact E1].
    right. intros E2. apply Hab. apply vsub_zero_iff.
    destruct (vsub (pos b) (pos a)) as [dx dy]; simpl in *. f_equal; lra. }
  rewrite C, S.
  replace (fst (vsub (pos b) (pos a)) * fst (vsub (pos b) (pos a))
           + - snd (vsub (pos b) (pos a)) * - snd (vsub (pos b) (pos a)))
    with (fst (vsub (pos b) (pos a)) * fst (vsub (pos b) (pos a))
          + snd (vsub (pos b) (pos a)) * snd (vsub (pos b) (pos a))) by ring.
  fold (norm (vsub (pos b) (pos a))).
  set (n := norm (vsub (pos b) (pos a))) in *.
  destruct (vsub (pos b) (pos a)) as [dx dy]. unfold matmul; simpl in *.
  f_equal.
  - replace (dx / n * dx + - (- dy / n) * dy) with ((dx * dx + dy * dy) / n)
      by (field; assumption).
    rewrite <- Hs. field. assumption.
  - field. assumption.
Qed.

Lemma rotation_aligns_centres_witness :
  matmul (rotation scenario_a scenario_b)
    (vsub (pos scenario_b) (pos scenario_a))
  = (dist scenario_b scenario_a, 0).
Proof.
  apply (rotation_aligns_centres scenario_a scenario_b).
  simpl. intros H. inversion H. lra.
Defined.

(** ** The resolution in vector form *)

(** X9: for distinct centres and masses that do not sum to zero, the
    resolution is the usual elastic collision along the unit vector [n]
    between the centres: with [j = (v_b - v_a) . n], the first body gets
    velocity [v_a + (2 m_b / (m_a + m_b)) j n] and the second
    [v_b - (2 m_a / (m_a + m_b)) j n], and each is moved by half the
    overlap along [n], away from the other. *)
Theorem resolve_pair_vector_form (a b : Object) :
  pos a <> pos b -> mass a + mass b <> 0 ->
  resolve_pair a b =
  Ok (set_vel
        (set_pos a
           (vsub (pos a)
              (vscale ((size a + size b - dist b a) / 2) (unit_normal a b))))
        (vadd (vel a)
           (vscale (2 * mass b / (mass a + mass b)
                    * dot (vsub (vel b) (vel a)) (unit_normal a b))
              (unit_normal a b))),
      set_vel
        (set_pos b
           (vadd (pos b)
              (vscale ((size a + size b - dist b a) / 2) (unit_normal a b))))
        (vsub (vel b)
           (vscale (2 * mass a / (mass a + mass b)
                    * dot (vsub (vel b) (vel a)) (unit_normal a b))
              (unit_normal a b)))).
Proof.
  intros Hab Hm.
  assert (Hn : norm (vsub (pos b) (pos a)) <> 0).
  { intros E. apply Hab. apply vsub_zero_iff, norm_zero_iff. exact E. }
  unfold resolve_pair, separate. rewrite vdiv_Ok by assumption.
  rewrite exchange_Ok by assumption. cbn [bind fst snd].
  unfold unit_normal, dist.
  unfold rotation.
  destruct (arctan2_cos_sin (- snd (vsub (pos b) (pos a)))
              (fst (vsub (pos b) (pos a)))) as [C S].
  { destruct (Req_dec_T (fst (vsub (pos b) (pos a))) 0) as [E1|E1]; [|left; exact E1].
    right. intros E2. apply Hab. apply vsub_zero_iff.
    destruct (vsub (pos b) (pos a)) as [dx dy]; simpl in *. f_equal; lra. }
  rewrite C, S.
  replace (fst (vsub (pos b) (pos a)) * fst (vsub (pos b) (pos a))
           + - snd (vsub (pos b) (pos a)) * - snd (vsub (pos b) (pos a)))
    with (fst (vsub (pos b) (pos a)) * fst (vsub (pos b) (pos a))
          + snd (vsub (pos b) (pos a)) * snd (vsub (pos b) (pos a))) by ring.
  fold (norm (vsub (pos b) (pos a))).
  pose proof (norm_sqr (vsub (pos b) (pos a))) as Hs.
  set (n := norm (vsub (pos b) (pos a))) in *.
  destruct (vsub (pos b) (pos a)) as [dx dy].
  destruct (vel a) as [x1 y1] eqn:Ea. destruct (vel b) as [x2 y2] eqn:Eb.
  cbn [fst snd] in *.
  replace (- dy / n) with (- (dy / n)) by (field; assumption).
  assert (U : (dx / n) * (dx / n) = 1 - (dy / n) * (dy / n)).
  { replace (dx / n * (dx / n)) with ((dx * dx) / (n * n)) by (field; assumption).
    replace (dx * dx) with (n * n - dy * dy) by lra.
    field. assumption. }
  set (c := dx / n) in *. set (s := dy / n) in *.
  unfold set_vel, set_pos, matmul, transpose, vadd, vsub, vscale, dot.
  cbn [fst snd pos vel size color mass].
  f_equal. f_equal.
  - f_equal. f_equal; field [U]; assumption.
  - f_equal. f_equal; field [U]; assumption.
Qed.

Lemma resolve_pair_vector_form_witness :
  resolve_pair scenario_a scenario_b =
  Ok (set_vel
        (set_pos scenario_a
           (vsub (pos scenario_a)
              (vscale ((size scenario_a + size scenario_b
                        - dist scenario_b scenario_a) / 2)
                 (unit_normal scenario_a scenario_b))))
        (vadd (vel scenario_a)
           (vscale (2 * mass scenario_b / (mass scenario_a + mass scenario_b)
                    * dot (vsub (vel scenario_b) (vel scenario_a))
                        (unit_normal scenario_a scenario_b))
              (unit_normal scenario_a scenario_b))),
      set_vel
        (set_pos scenario_b
           (vadd (pos scenario_b)
              (vscale ((size scenario_a + size scenario_b
                        - dist scenario_b scenario_a) / 2)
                 (unit_normal scenario_a scenario_b))))
        (vsub (vel scenario_b)
           (vscale (2 * mass scenario_a / (mass scenario_a + mass scenario_b)
                    * dot (vsub (vel scenario_b) (vel scenario_a))
                        (unit_normal scenario_a scenario_b))
              (unit_normal scenario_a scenario_b)))).
Proof.
  apply (resolve_pair_vector_form scenario_a scenario_b).
  - simpl. intros H. inversion H. lra.
  - simpl. lra.
Defined.

(** ** Quadrants *)

(** X10: for a rectangle of non-negative extent and a body of non-negative
    radius, [inside] keeps the body for the rectangle exactly when it keeps
    it for one of the four quadrants. *)
Theorem inside_quadrants (st : store) (p sz : vec) (l : list ref) (i : ref) :
  0 <= fst sz -> 0 <= snd sz -> 0 <= size (deref st i) ->
  (In i (inside st p sz l) <->
   In i (inside st p (half sz) l)
   \/ In i (inside st (fst p + fst (half sz), snd p) (half sz) l)
   \/ In i (inside st (fst p, snd p + snd (half sz)) (half sz) l)
   \/ In i (inside st (fst p + fst (half sz), snd p + snd (half sz)) (half sz) l)).
Proof.
  intros Hw Hh Hr. rewrite !inside_In. split.
  - intros [Hi Ho].
    destruct (Overlaps_quadrant p sz _ _ Hr Ho) as [Q|[Q|[Q|Q]]]; auto 10.
  - unfold Overlaps, half; simpl.
    intros [[Hi Q]|[[Hi Q]|[[Hi Q]|[Hi Q]]]]; (split; [exact Hi|lra]).
Qed.

Lemma inside_quadrants_witness :
  In 0%nat (inside six_bodies (0, 0) (800, 800) (refs_of six_bodies)) <->
  In 0%nat (inside six_bodies (0, 0) (half (800, 800)) (refs_of six_bodies))
  \/ In 0%nat (inside six_bodies
                 (fst (0, 0) + fst (half (800, 800)), snd (0, 0))
                 (half (800, 800)) (refs_of six_bodies))
  \/ In 0%nat (inside six_bodies
                 (fst (0, 0), snd (0, 0) + snd (half (800, 800)))
                 (half (800, 800)) (refs_of six_bodies))
  \/ In 0%nat (inside six_bodies
                 (fst (0, 0) + fst (half (800, 800)),
                  snd (0, 0) + snd (half (800, 800)))
                 (half (800, 800)) (refs_of six_bodies)).
Proof.
  apply (inside_quadrants six_bodies (0, 0) (800, 800) (refs_of six_bodies) 0%nat);
    simpl; lra.
Defined.

(** ** The shape of the tree *)

Lemma leaves_eq (p sz : vec) (pts : list ref) (ch : list Node) :
  leaves (mkNode p sz pts ch) =
  match ch with
  | [] => [mkNode p sz pts ch]
  | _ :: _ => flat_map leaves ch
  end.
Proof.
  destruct ch as [|c ch]; reflexivity.
Qed.

(** X11: the tree that [recursive_subdivide] returns for a node without
    children keeps the rectangle of the node, and every node of it is
    either a leaf of at most [k] bodies or holds no body and has four
    children that are the quadrants of its rectangle. *)
Theorem recursive_subdivide_shape (st : store) (k : nat) :
  forall fuel p sz pts t,
    recursive_subdivide fuel st (mkNode p sz pts []) k = Ok t ->
    quadtree k t /\ node_pos t = p /\ node_size t = sz.
Proof.
  induction fuel as [|fuel IH]; intros p sz pts t H; [discriminate|].
  rewrite recursive_subdivide_S in H. cbn [points] in H.
  destruct (length pts <=? k)%nat eqn:E.
  - inversion H; subst. repeat split. constructor. apply Nat.leb_le. exact E.
  - apply bind_Ok in H; destruct H as [x1 [E1 H]].
    apply bind_Ok in H; destruct H as [x2 [E2 H]].
    apply bind_Ok in H; destruct H as [x3 [E3 H]].
    apply bind_Ok in H; destruct H as [x4 [E4 H]].
    inversion H; subst; clear H.
    cbv beta iota zeta delta [child1 child2 child3 child4 node_pos node_size points]
      in E1, E2, E3, E4.
    apply IH in E1. apply IH in E2. apply IH in E3. apply IH in E4.
    destruct E1 as (T1 & P1 & S1), E2 as (T2 & P2 & S2),
      E3 as (T3 & P3 & S3), E4 as (T4 & P4 & S4).
    repeat split. constructor; assumption.
Qed.

Lemma recursive_subdivide_shape_witness :
  quadtree QUADTREE_K straddling_tree
  /\ node_pos straddling_tree = (0, 0)
  /\ node_size straddling_tree = dim straddling.
Proof.
  apply (recursive_subdivide_shape (objects straddling) QUADTREE_K 3 (0, 0)
           (dim straddling) (refs_of (objects straddling)) straddling_tree).
  exact (proj1 straddling_build).
Defined.

Lemma build_bodies (st : store) (k : nat) :
  forall fuel p sz pts t,
    recursive_subdivide fuel st (mkNode p sz pts []) k = Ok t ->
    (forall l i, In l (leaves t) -> In i (points l) -> In i pts)
    /\ (forall i, In i pts -> 0 <= size (deref st i) ->
                  Overlaps p sz (pos (deref st i)) (size (deref st i)) ->
                  exists l, In l (leaves t) /\ In i (points l)).
Proof.
  induction fuel as [|fuel IH]; intros p sz pts t H; [discriminate|].
  rewrite recursive_subdivide_S in H. cbn [points] in H.
  destruct (length pts <=? k)%nat eqn:E.
  - inversion H; subst. split.
    + intros l i [<-|[]] Hi. exact Hi.
    + intros i Hi _ _. exists (mkNode p sz pts []). split; [left; reflexivity|exact Hi].
  - apply bind_Ok in H; destruct H as [x1 [E1 H]].
    apply bind_Ok in H; destruct H as [x2 [E2 H]].
    apply bind_Ok in H; destruct H as [x3 [E3 H]].
    apply bind_Ok in H; destruct H as [x4 [E4 H]].
    inversion H; subst; clear H.
    cbv beta iota zeta delta [child1 child2 child3 child4 node_pos node_size points]
      in E1, E2, E3, E4.
    apply IH in E1. apply IH in E2. apply IH in E3. apply IH in E4.
    destruct E1 as [A1 B1], E2 as [A2 B2], E3 as [A3 B3], E4 as [A4 B4].
    rewrite leaves_eq. cbn [flat_map]. rewrite app_nil_r. split.
    + intros l i Hl Hi. rewrite !in_app_iff in Hl.
      destruct Hl as [Hl|[Hl|[Hl|Hl]]];
        [apply A1 in Hi|apply A2 in Hi|apply A3 in Hi|apply A4 in Hi];
        try assumption; apply inside_In in Hi; tauto.
    + intros i Hi Hr Ho.
      destruct (Overlaps_quadrant p sz _ _ Hr Ho) as [Q|[Q|[Q|Q]]].
      * destruct (B1 i) as [l [Hl Hp]]; try assumption.
        { apply inside_In. split; assumption. }
        exists l. rewrite !in_app_iff. auto.
      * destruct (B2 i) as [l [Hl Hp]]; try assumption.
        { apply inside_In. split; assumption. }
        exists l. rewrite !in_app_iff. auto.
      * destruct (B3 i) as [l [Hl Hp]]; try assumption.
        { apply inside_In. split; assumption. }
        exists l. rewrite !in_app_iff. auto.
      * destruct (B4 i) as [l [Hl Hp]]; try assumption.
        { apply inside_In. split; assumption. }
        exists l. rewrite !in_app_iff. auto.
Qed.

(** X12: the leaves of the tree hold bodies of the node only, and every
    body of the node that has a non-negative radius and overlaps the
    rectangle of the node is in some leaf. *)
Theorem recursive_subdivide_bodies (st : store) (k : nat) :
  forall fuel p sz pts t,
    recursive_subdivide fuel st (mkNode p sz pts []) k = Ok t ->
    (forall l i, In l (leaves t) -> In i (points l) -> In i pts)
    /\ (forall i, In i pts -> 0 <= size (deref st i) ->
                  Overlaps p sz (pos (deref st i)) (size (deref st i)) ->
                  exists l, In l (leaves t) /\ In i (points l)).
Proof. apply build_bodies. Qed.

Lemma recursive_subdivide_bodies_witness :
  (forall l i, In l (leaves straddling_tree) -> In i (points l) ->
               In i (refs_of (objects straddling)))
  /\ (forall i, In i (refs_of (objects straddling)) ->
                0 <= size (deref (objects straddling) i) ->
                Overlaps (0, 0) (dim straddling)
                  (pos (deref (objects straddling) i))
                  (size (deref (objects straddling) i)) ->
                exists l, In l (leaves straddling_tree) /\ In i (points l)).
Proof.
  apply (recursive_subdivide_bodies (objects straddling) QUADTREE_K 3 (0, 0)
           (dim straddling) (refs_of (objects straddling)) straddling_tree).
  exact (proj1 straddling_build).
Defined.

(** ** What detection adds *)

Lemma appends_refl (st : store) (U : list ref) (l : list Collision) :
  appends st U l l.
Proof. exists []. rewrite app_nil_r. split; [reflexivity|constructor]. Qed.

Lemma appends_trans (st : store) (U : list ref) (l1 l2 l3 : list Collision) :
  appends st U l1 l2 -> appends st U l2 l3 -> appends st U l1 l3.
Proof.
  intros [n1 [-> F1]] [n2 [-> F2]]. exists (n1 ++ n2).
  rewrite app_assoc. split; [reflexivity|]. apply Forall_app; split; assumption.
Qed.

Lemma fold_left_appends {B : Type} (st : store) (U : list ref)
  (f : list Collision -> B -> list Collision) (bs : list B) :
  (forall a b, In b bs -> appends st U a (f a b)) ->
  forall a, appends st U a (fold_left f bs a).
Proof.
  induction bs as [|b bs IH]; intros Hf a; simpl; [apply appends_refl|].
  eapply appends_trans; [apply Hf; left; reflexivity|].
  apply IH. intros a' b' Hb. apply Hf. right. exact Hb.
Qed.

Lemma scan_pair_appends (st : store) (U : list ref) (i j : ref)
  (l : list Collision) :
  In i U -> In j U -> appends st U l (scan_pair st i j l).
Proof.
  intros Hi Hj. unfold scan_pair.
  destruct (negb (i =? j)%nat) eqn:E1; simpl; [|apply appends_refl].
  destruct (collides (deref st i) (deref st j)) eqn:E2; simpl; [|apply appends_refl].
  destruct (negb (Collision_in (mkCollision i j) l)); [|apply appends_refl].
  exists [mkCollision i j]. split; [reflexivity|]. constructor; [|constructor].
  unfold colliding_pair; simpl. repeat split; try assumption.
  apply negb_true_iff, Nat.eqb_neq in E1. exact E1.
Qed.

Lemma scan_leaf_appends (st : store) (U pts : list ref) (l : list Collision) :
  incl pts U -> appends st U l (scan_leaf st pts l).
Proof.
  intros Hincl. unfold scan_leaf.
  apply fold_left_appends. intros a i Hi.
  apply fold_left_appends. intros a' j Hj.
  apply scan_pair_appends; apply Hincl; assumption.
Qed.

Lemma traverse_appends (st : store) (U : list ref) (t : Node) :
  (forall l i, In l (leaves t) -> In i (points l) -> In i U) ->
  forall colls, appends st U colls (traverse st t colls).
Proof.
  induction t as [p sz pts ch IH] using Node_induction. intros HU colls.
  rewrite traverse_eq. rewrite leaves_eq in HU. destruct ch as [|c ch].
  - apply scan_leaf_appends. intros i Hi.
    apply (HU (mkNode p sz pts [])); [left; reflexivity|exact Hi].
  - unfold traverse_children. apply fold_left_appends.
    intros a x Hx. rewrite Forall_forall in IH. apply IH; [exact Hx|].
    intros l i Hl Hi. apply (HU l i); [|exact Hi].
    apply in_flat_map. exists x. split; assumption.
Qed.

Lemma find_collisions_appends (fuel : nat) (s s1 : Space) :
  find_collisions fuel s = Ok s1 ->
  exists new : list Collision,
    collisions s1 = collisions s ++ new
    /\ Forall (fun c =>
                 obj1 c <> obj2 c
                 /\ (obj1 c < length (objects s))%nat
                 /\ (obj2 c < length (objects s))%nat
                 /\ collides (deref (objects s) (obj1 c))
                      (deref (objects s) (obj2 c)) = true) new.
Proof.
  unfold find_collisions, root_of. intros H.
  apply bind_Ok in H; destruct H as [t [E H]]. inversion H; subst; clear H.
  simpl. apply build_bodies in E. destruct E as [A _].
  destruct (traverse_appends (objects s) (refs_of (objects s)) t A (collisions s))
    as [new [E F]].
  exists new. split; [exact E|].
  eapply Forall_impl; [|exact F]. intros c (H1 & H2 & H3 & H4).
  unfold refs_of in H2, H3. apply in_seq in H2. apply in_seq in H3.
  repeat split; try assumption; lia.
Qed.

(** X13: [find_collisions] only appends to the pending list, and each
    collision it appends is a pair of two different bodies of the space
    that collide. *)
Theorem find_collisions_appends_colliding_pairs (fuel : nat) (s s1 : Space) :
  find_collisions fuel s = Ok s1 ->
  exists new : list Collision,
    collisions s1 = collisions s ++ new
    /\ Forall (fun c =>
                 obj1 c <> obj2 c
                 /\ (obj1 c < length (objects s))%nat
                 /\ (obj2 c < length (objects s))%nat
                 /\ collides (deref (objects s) (obj1 c))
                      (deref (objects s) (obj2 c)) = true) new.
Proof. apply find_collisions_appends. Qed.

Lemma find_collisions_appends_colliding_pairs_witness :
  exists new : list Collision,
    [mkCollision 0%nat 1%nat] = collisions wall_pair ++ new
    /\ Forall (fun c =>
                 obj1 c <> obj2 c
                 /\ (obj1 c < length (objects wall_pair))%nat
                 /\ (obj2 c < length (objects wall_pair))%nat
                 /\ collides (deref (objects wall_pair) (obj1 c))
                      (deref (objects wall_pair) (obj2 c)) = true) new.
Proof.
  apply (find_collisions_appends_colliding_pairs 1 wall_pair _ wall_pair_find).
Defined.

(** X14: in a space with nothing pending where no two bodies collide,
    [handle_collisions] changes nothing, whenever the build returns. *)
Theorem handle_collisions_without_collision (fuel : nat) (s : Space) (t : Node) :
  recursive_subdivide fuel (objects s) (root_of s) QUADTREE_K = Ok t ->
  collisions s = [] ->
  (forall i j, (i < length (objects s))%nat -> (j < length (objects s))%nat ->
               i <> j ->
               collides (deref (objects s) i) (deref (objects s) j) = false) ->
  handle_collisions fuel s = Ok s.
Proof.
  intros E Hc Hno. unfold handle_collisions.
  destruct (find_collisions fuel s) as [s1| |] eqn:F.
  - pose proof (find_collisions_objects fuel s s1 F) as [Ho Hd].
    destruct (find_collisions_appends fuel s s1 F) as [new [En Fn]].
    rewrite Hc in En. simpl in En.
    destruct new as [|c new].
    + cbn [bind]. rewrite En. simpl.
      destruct s1 as [o1 d1 c1], s as [o d c]; simpl in *. subst. reflexivity.
    + exfalso. inversion Fn as [|? ? (H1 & H2 & H3 & H4) _]; subst.
      rewrite (Hno _ _ H2 H3 H1) in H4. discriminate.
  - unfold find_collisions in F. rewrite E in F. discriminate.
  - unfold find_collisions in F. rewrite E in F. discriminate.
Qed.

Lemma handle_collisions_without_collision_witness :
  handle_collisions 1 apart = Ok apart.
Proof.
  apply (handle_collisions_without_collision 1 apart (root_of apart)).
  - apply recursive_subdivide_small. unfold QUADTREE_K. simpl. lia.
  - reflexivity.
  - intros i j Hi Hj Hij. simpl in Hi, Hj.
    destruct i as [|[|i]], j as [|[|j]]; try lia;
      apply collides_false_iff; simpl; lra.
Defined.

(** X15: with at most 5 bodies the root is kept as a leaf: detection
    compares all pairs at the first call, wherever the bodies are, reports
    every colliding pair, and a tick never hits the recursion limit. *)
Theorem few_bodies_need_no_tree (fuel : nat) (s : Space) :
  (length (objects s) <= QUADTREE_K)%nat ->
  find_collisions (S fuel) s =
    Ok {| objects := objects s; dim := dim s;
          collisions := scan_leaf (objects s) (refs_of (objects s)) (collisions s) |}
  /\ update (S fuel) s <> RecursionError
  /\ forall i j, (i < length (objects s))%nat -> (j < length (objects s))%nat ->
                 i <> j ->
                 collides (deref (objects s) i) (deref (objects s) j) = true ->
                 Collision_in (mkCollision i j)
                   (scan_leaf (objects s) (refs_of (objects s)) (collisions s))
                 = true.
Proof.
  intros H. split; [|split].
  - unfold find_collisions, root_of.
    rewrite recursive_subdivide_small
      by (cbn [points]; unfold refs_of; rewrite length_seq; exact H).
    reflexivity.
  - intros E. apply update_recursion_iff in E. unfold root_of in E.
    rewrite recursive_subdivide_small in E; [discriminate|].
    cbn [points]. unfold refs_of, move_objects. cbn [objects].
    rewrite length_seq, length_map. exact H.
  - intros i j Hi Hj Hij Hc.
    apply scan_leaf_finds; try assumption; apply deref_in_range; assumption.
Qed.

Lemma few_bodies_need_no_tree_witness :
  find_collisions (S 0) wall_pair =
    Ok {| objects := objects wall_pair; dim := dim wall_pair;
          collisions := scan_leaf (objects wall_pair)
                          (refs_of (objects wall_pair)) (collisions wall_pair) |}
  /\ update (S 0) wall_pair <> RecursionError
  /\ forall i j, (i < length (objects wall_pair))%nat ->
                 (j < length (objects wall_pair))%nat -> i <> j ->
                 collides (deref (objects wall_pair) i)
                   (deref (objects wall_pair) j) = true ->
                 Collision_in (mkCollision i j)
                   (scan_leaf (objects wall_pair) (refs_of (objects wall_pair))
                      (collisions wall_pair))
                 = true.
Proof.
  apply (few_bodies_need_no_tree 0 wall_pair). unfold QUADTREE_K. simpl. lia.
Defined.

(** ** Which pairs the loop resolves *)

Lemma list_remove_app (c : Collision) (K R : list Collision) :
  countC c K = 0%nat -> list_remove c (K ++ c :: R) = K ++ R.
Proof.
  unfold countC. induction K as [|x K IH]; simpl; intros H.
  - rewrite Collision_eq_refl. reflexivity.
  - destruct (Collision_eq x c); simpl in H; [discriminate|].
    rewrite IH by assumption. reflexivity.
Qed.

Lemma pending_once_head (c : Collision) (K R : list Collision) :
  pending_once (K ++ c :: R) -> countC c K = 0%nat.
Proof.
  intros H. specialize (H c). rewrite countC_app in H.
  unfold countC at 2 in H. simpl in H. rewrite Collision_eq_refl in H.
  simpl in H. lia.
Qed.

Lemma pending_once_drop (c : Collision) (K R : list Collision) :
  pending_once (K ++ c :: R) -> pending_once (K ++ R).
Proof.
  intros H x. specialize (H x). rewrite countC_app in *.
  unfold countC at 2 in H. simpl in H.
  destruct (Collision_eq c x); simpl in H; fold (countC x R) in H; lia.
Qed.

Lemma resolve_from_past (n i : nat) (s : Space) :
  (length (collisions s) <= i)%nat -> resolve_from n i s = Ok s.
Proof.
  intros H. apply nth_error_None in H. destruct n; simpl; rewrite H; reflexivity.
Qed.

Lemma resolve_from_loop (d : vec) (n : nat) :
  forall (R K : list Collision) (st : store),
    pending_once (K ++ R) -> (length R <= n)%nat ->
    resolve_from n (length K) {| objects := st; dim := d; collisions := K ++ R |}
    = (st' <- resolve_all (evens R) st ;;
       Ok {| objects := st'; dim := d; collisions := K ++ odds R |}).
Proof.
  induction n as [|n IH]; intros R K st Hp Hn.
  - destruct R; [|simpl in Hn; lia].
    rewrite resolve_from_past by (simpl; rewrite app_nil_r; lia). reflexivity.
  - destruct R as [|c R].
    + rewrite resolve_from_past by (simpl; rewrite app_nil_r; lia). reflexivity.
    + cbn [resolve_from collisions objects dim].
      rewrite nth_error_app2 by lia. rewrite Nat.sub_diag. cbn [nth_error].
      rewrite (list_remove_app c K R (pending_once_head c K R Hp)).
      cbn [evens resolve_all]. destruct (resolve c st) as [st'| |]; cbn [bind];
        try reflexivity.
      apply pending_once_drop in Hp.
      destruct R as [|c1 R].
      * rewrite resolve_from_past by (simpl; rewrite app_nil_r; lia).
        reflexivity.
      * replace (K ++ c1 :: R) with ((K ++ [c1]) ++ R) in *
          by (rewrite <- app_assoc; reflexivity).
        replace (S (length K)) with (length (K ++ [c1]))
          by (rewrite length_app; simpl; lia).
        rewrite IH; [|exact Hp|simpl in Hn; lia].
        cbn [odds]. rewrite <- app_assoc. reflexivity.
Qed.

Lemma length_odds {A : Type} (l : list A) : length (odds l) = Nat.div2 (length l).
Proof.
  assert (H : forall n (l : list A), (length l <= n)%nat ->
                                     length (odds l) = Nat.div2 (length l)).
  { induction n as [|n IH]; intros [|x [|y t]] Hl; simpl in *; try reflexivity;
      try lia. rewrite IH by lia. reflexivity. }
  apply (H (length l)). lia.
Qed.

(** X16: when no pair is pending twice, the loop of [handle_collisions]
    resolves the collisions at positions 0, 2, 4, ... of the list that
    detection returns, in that order, and leaves those at positions
    1, 3, 5, ... pending: half of them, rounded down. *)
Theorem handle_collisions_resolves_alternate_pairs (fuel : nat) (s s1 : Space) :
  pending_once (collisions s) ->
  find_collisions fuel s = Ok s1 ->
  handle_collisions fuel s =
    (st' <- resolve_all (evens (collisions s1)) (objects s1) ;;
     Ok {| objects := st'; dim := dim s1; collisions := odds (collisions s1) |})
  /\ length (odds (collisions s1)) = Nat.div2 (length (collisions s1)).
Proof.
  intros Hp F. split; [|apply length_odds].
  unfold handle_collisions. rewrite F. cbn [bind].
  assert (Hp1 : pending_once (collisions s1)).
  { unfold find_collisions in F.
    apply bind_Ok in F; destruct F as [t [_ F]]. inversion F; subst; simpl.
    apply traverse_pending_once. exact Hp. }
  destruct s1 as [o1 d1 c1]. cbn [collisions objects dim] in *.
  apply (resolve_from_loop d1 (length c1) c1 [] o1); [exact Hp1|lia].
Qed.

Lemma handle_collisions_resolves_alternate_pairs_witness :
  handle_collisions 1 two_pairs =
    (st' <- resolve_all [mkCollision 0%nat 1%nat] (objects two_pairs) ;;
     Ok {| objects := st'; dim := dim two_pairs;
           collisions := [mkCollision 2%nat 3%nat] |})
  /\ length [mkCollision 2%nat 3%nat] = 1%nat.
Proof.
  apply (handle_collisions_resolves_alternate_pairs 1 two_pairs _
           (fun c => Nat.le_0_l 1) two_pairs_find).
Defined.

(** One tick of [pending_pair]: detection meets the pending pair (2,3)
    again and does not append it, appends (0,1), and the loop resolves
    (2,3) only. *)
Lemma pending_pair_update : update 1 pending_pair = Ok pending_pair_after.
Proof.
  unfold update, handle_collisions.
  assert (Hm : move_objects pending_pair = pending_pair).
  { unfold move_objects, pending_pair. cbn [objects dim collisions map].
    f_equal. unfold move_object, ball. Rleb_eval. simpl.
    unfold set_vel, set_pos, vadd; simpl. store_eq. }
  rewrite Hm.
  assert (Hf : find_collisions 1 pending_pair =
               Ok {| objects := objects pending_pair; dim := dim pending_pair;
                     collisions := [mkCollision 2%nat 3%nat; mkCollision 0%nat 1%nat] |}).
  { unfold find_collisions, root_of.
    rewrite recursive_subdivide_small by (unfold QUADTREE_K; simpl; lia).
    cbn [bind]. f_equal. f_equal.
    unfold pending_pair, refs_of. cbn [objects collisions length seq traverse].
    unfold scan_leaf. cbn [fold_left]. scan_eval. reflexivity. }
  rewrite Hf.
  cbn [bind collisions length resolve_from nth_error objects].
  unfold resolve. cbn [obj1 obj2]. unfold pending_pair at 1 2.
  cbn [objects deref nth].
  rewrite resolve_pair_x_axis by (simpl; lra).
  cbn [bind fst snd set_nth list_remove Collision_eq obj1 obj2 Nat.eqb andb orb
         dim nth_error].
  unfold pending_pair, pending_pair_after, ball.
  cbn [objects dim pos vel size mass color fst snd set_nth].
  f_equal. f_equal. store_eq.
Qed.

(** X17: a tick never makes a pair pending twice: if no collision of the
    pending list equals another one before [update], none does after. *)
Theorem update_keeps_pending_once (fuel : nat) (s s' : Space) :
  update fuel s = Ok s' ->
  pending_once (collisions s) -> pending_once (collisions s').
Proof. apply update_pending_once. Qed.

Lemma update_keeps_pending_once_witness :
  update 1 pending_pair = Ok pending_pair_after
  /\ pending_once (collisions pending_pair)
  /\ pending_once (collisions pending_pair_after).
Proof.
  assert (Hp : pending_once (collisions pending_pair)).
  { intros c. unfold countC, pending_pair. simpl.
    destruct (Collision_eq (mkCollision 2%nat 3%nat) c); simpl; lia. }
  split; [exact pending_pair_update|]. split; [exact Hp|].
  apply (update_keeps_pending_once 1 pending_pair pending_pair_after
           pending_pair_update Hp).
Defined.

(** ** The reach of one resolution *)

Lemma nth_set_nth_other {A : Type} (d x : A) :
  forall (l : list A) (i k : nat), k <> i -> nth k (set_nth i x l) d = nth k l d.
Proof.
  induction l as [|h t IH]; intros i k Hk; [reflexivity|].
  destruct i as [|i], k as [|k]; simpl; try reflexivity; try lia.
  apply IH. lia.
Qed.

Lemma set_nth_length {A : Type} (x : A) :
  forall (l : list A) (i : nat), length (set_nth i x l) = length l.
Proof.
  induction l as [|h t IH]; intros i; [reflexivity|].
  destruct i; simpl; [reflexivity|]. rewrite IH. reflexivity.
Qed.

Lemma two_pairs_resolve_first :
  resolve (mkCollision 0%nat 1%nat) (objects two_pairs) =
  Ok [ball (195 / 2, 100); ball (235 / 2, 100); ball (300, 300); ball (315, 300)].
Proof.
  unfold resolve. cbn [obj1 obj2]. unfold two_pairs at 1 2.
  cbn [objects deref nth].
  rewrite resolve_pair_x_axis by (simpl; lra).
  cbn [bind fst snd]. unfold two_pairs, ball.
  cbn [objects pos vel size mass color fst snd set_nth].
  f_equal. store_eq.
Qed.

(** X18: the resolution of a collision keeps the number of bodies and
    writes no body other than the two of the collision. *)
Theorem resolve_writes_two_bodies (c : Collision) (st st' : store) (k : ref) :
  resolve c st = Ok st' ->
  length st' = length st
  /\ (k <> obj1 c -> k <> obj2 c -> deref st' k = deref st k).
Proof.
  unfold resolve. intros H.
  apply bind_Ok in H; destruct H as [r [_ H]]. inversion H; subst; clear H.
  split.
  - rewrite !set_nth_length. reflexivity.
  - intros H1 H2. unfold deref.
    rewrite !nth_set_nth_other by assumption. reflexivity.
Qed.

Lemma resolve_writes_two_bodies_witness :
  length [ball (195 / 2, 100); ball (235 / 2, 100);
          ball (300, 300); ball (315, 300)]
  = length (objects two_pairs)
  /\ (2%nat <> 0%nat -> 2%nat <> 1%nat ->
      deref [ball (195 / 2, 100); ball (235 / 2, 100);
             ball (300, 300); ball (315, 300)] 2%nat
      = deref (objects two_pairs) 2%nat).
Proof.
  apply (resolve_writes_two_bodies (mkCollision 0%nat 1%nat) (objects two_pairs)
           [ball (195 / 2, 100); ball (235 / 2, 100);
            ball (300, 300); ball (315, 300)] 2%nat).
  exact two_pairs_resolve_first.
Defined.

(** ** One step of a body *)

(** The sixteen outcomes of the four wall tests. *)
Ltac move_cases o d :=
  unfold move_object;
  destruct (Rleb (snd d - size o) (snd (vadd (pos o) (vel o)))) eqn:E1;
  destruct (Rleb (fst (vadd (pos o) (vel o))) (size o)) eqn:E2;
  destruct (Rleb (fst d - size o) (fst (vadd (pos o) (vel o)))) eqn:E3;
  destruct (Rleb (snd (vadd (pos o) (vel o))) (size o)) eqn:E4;
  rewrite ?Rleb_true_iff, ?Rleb_false_iff in *; unfold vadd in *; simpl in *.

(** X19: a body whose next position is strictly inside the walls, by its
    radius on every side, moves by its velocity and keeps it. *)
Theorem move_object_free_flight (d : vec) (o : Object) :
  size o < fst (pos o) + fst (vel o) < fst d - size o ->
  size o < snd (pos o) + snd (vel o) < snd d - size o ->
  move_object d o = set_pos o (vadd (pos o) (vel o)).
Proof.
  intros Hx Hy. move_cases o d; try lra.
  unfold set_vel, set_pos; simpl. destruct (vel o). reflexivity.
Qed.

Lemma move_object_free_flight_witness :
  move_object (800, 800) flying =
  set_pos flying (vadd (pos flying) (vel flying)).
Proof.
  apply (move_object_free_flight (800, 800) flying); simpl; lra.
Defined.

Lemma Rabs_max_opp (v : R) : Rabs (Rmax 0 (- v)) <= Rabs v.
Proof.
  unfold Rmax. destruct (Rle_dec 0 (- v)).
  - rewrite Rabs_Ropp. lra.
  - rewrite Rabs_R0. apply Rabs_pos.
Qed.

Lemma Rabs_min_opp (v : R) : Rabs (Rmin 0 (- v)) <= Rabs v.
Proof.
  unfold Rmin. destruct (Rle_dec 0 (- v)).
  - rewrite Rabs_R0. apply Rabs_pos.
  - rewrite Rabs_Ropp. lra.
Qed.

(** X20: [move_objects] never increases the size of either velocity
    component of a body. *)
Theorem move_object_never_speeds_up (d : vec) (o : Object) :
  Rabs (fst (vel (move_object d o))) <= Rabs (fst (vel o))
  /\ Rabs (snd (vel (move_object d o))) <= Rabs (snd (vel o)).
Proof.
  pose proof (Rabs_max_opp (fst (vel o))).
  pose proof (Rabs_min_opp (fst (vel o))).
  pose proof (Rabs_max_opp (snd (vel o))).
  pose proof (Rabs_min_opp (snd (vel o))).
  pose proof (Rabs_min_opp (Rmax 0 (- fst (vel o)))).
  pose proof (Rabs_max_opp (Rmin 0 (- snd (vel o)))).
  move_cases o d; split; lra.
Qed.

(** X21: at a wall the velocity of the body does not point outward after
    [move_objects].  At the walls x = width - radius and y = radius this
    holds for every body; at the wall x = radius for a body that is not
    also past the opposite wall, whose test comes later, and likewise at
    y = height - radius.  At these two walls a velocity that pointed
    outward is reversed and one that pointed inward is set to zero. *)
Theorem move_object_turns_back_at_walls (d : vec) (o : Object) :
  let x := fst (pos o) + fst (vel o) in
  let y := snd (pos o) + snd (vel o) in
  let o' := move_object d o in
  (fst d - size o <= x -> fst (vel o') <= 0)
  /\ (x <= size o -> x < fst d - size o ->
      0 <= fst (vel o')
      /\ (fst (vel o) <= 0 -> fst (vel o') = - fst (vel o))
      /\ (0 <= fst (vel o) -> fst (vel o') = 0))
  /\ (y <= size o -> 0 <= snd (vel o'))
  /\ (snd d - size o <= y -> size o < y ->
      snd (vel o') <= 0
      /\ (0 <= snd (vel o) -> snd (vel o') = - snd (vel o))
      /\ (snd (vel o) <= 0 -> snd (vel o') = 0)).
Proof.
  intros x y o'. subst x y o'.
  pose proof (Rmax_l 0 (- fst (vel o))).
  pose proof (Rmin_l 0 (- fst (vel o))).
  pose proof (Rmax_l 0 (- snd (vel o))).
  pose proof (Rmin_l 0 (- snd (vel o))).
  pose proof (Rmin_l 0 (- Rmax 0 (- fst (vel o)))).
  pose proof (Rmax_l 0 (- Rmin 0 (- snd (vel o)))).
  assert (M1 : fst (vel o) <= 0 -> Rmax 0 (- fst (vel o)) = - fst (vel o))
    by (intros; apply Rmax_right; lra).
  assert (M2 : 0 <= fst (vel o) -> Rmax 0 (- fst (vel o)) = 0)
    by (intros; apply Rmax_left; lra).
  assert (M3 : 0 <= snd (vel o) -> Rmin 0 (- snd (vel o)) = - snd (vel o))
    by (intros; apply Rmin_right; lra).
  assert (M4 : snd (vel o) <= 0 -> Rmin 0 (- snd (vel o)) = 0)
    by (intros; apply Rmin_left; lra).
  move_cases o d; repeat split; intros; try lra; auto.
Qed.
